(** * PixelGen: the pixel-grid pipeline of ozguradmin/pixelart

    A shallow embedding of the algorithmic core of the repository:

    - [utils/pixelProcessor]: [processImageToGrid] (background-aware
      quantizer), [rgbToHex] and [generateCodeSnippet] (RLE export);
    - [components/CanvasPreview]: the viewport scale effect, the default-tool
      effect and [applyTool] (pencil, eraser, magic eraser).

    JavaScript numbers that are integers in every run of the code (pixel
    coordinates, byte channels, palette indices, run lengths) are modelled
    as [Z]; container dimensions, which the DOM reports as fractional
    numbers, as [Q]; strings as [string], of which only equality is used. *)

From Stdlib Require Import ZArith QArith Qround Qminmax Reals Lra.
From Stdlib Require Import HexadecimalString.
From Stdlib Require Import Ascii HexadecimalPos.
From Stdlib Require DecimalString.
From stdpp Require Import gmap strings list.

#[local] Open Scope Z_scope.

(** ** Colours *)

(** The sentinel the whole code base uses for an absent pixel. *)
Definition transparent : string := "transparent".

(** ** utils/pixelProcessor: generateCodeSnippet *)

(** [new Set(xs)] iterates in insertion order and ignores a value that is
    already present; [Array.from] then lists the members in that order. *)
Definition set_add (s : list string) (c : string) : list string :=
  if decide (c ∈ s) then s else s ++ [c].

Definition array_from_set (xs : list string) : list string :=
  foldl set_add [] xs.

(** [Array.prototype.indexOf]: position of the first strictly equal element,
    [-1] when there is none. *)
Fixpoint indexOf_from (i : Z) (l : list string) (c : string) : Z :=
  match l with
  | [] => -1
  | d :: l' => if decide (d = c) then i else indexOf_from (i + 1) l' c
  end.

Definition indexOf (l : list string) (c : string) : Z := indexOf_from 0 l c.

(** The three mutable locals of the run-length loop. *)
Record rleState := RleState {
  rleData : list Z;
  currentVal : Z;
  currentCount : Z
}.

(** One iteration of [for (let i = 1; i < rawIndices.length; i++)]. *)
Definition rleStep (st : rleState) (v : Z) : rleState :=
  if decide (v = currentVal st)
  then RleState (rleData st) (currentVal st) (currentCount st + 1)
  else RleState (rleData st ++ [currentVal st; currentCount st]) v 1.

(** Step 3 of [generateCodeSnippet]: the flat [value, count, ...] stream. *)
Definition runLengthEncode (rawIndices : list Z) : list Z :=
  match rawIndices with
  | [] => []
  | v0 :: rest =>
      let st := foldl rleStep (RleState [] v0 1) rest in
      rleData st ++ [currentVal st; currentCount st]
  end.

(** The object literal [output] that [generateCodeSnippet] builds. *)
Record RLEOutput := MkRLEOutput {
  format : string;
  width : Z;
  height : Z;
  palette : list string;
  data : list Z
}.

Definition extractPalette (grid : list string) : list string :=
  array_from_set (filter (λ c, c ≠ transparent) grid).

Definition rawIndicesOf (pal : list string) (grid : list string) : list Z :=
  (λ color, if decide (color = transparent) then -1 else indexOf pal color)
    <$> grid.

(** [generateCodeSnippet(grid, size)] up to the final [JSON.stringify], which
    only prints the record built here. *)
Definition generateCodeSnippet (grid : list string) (size : Z) : RLEOutput :=
  let pal := extractPalette grid in
  let rawIndices := rawIndicesOf pal grid in
  let rleData := runLengthEncode rawIndices in
  MkRLEOutput "RLE (Value, Count)" size size pal rleData.

(** ** The decoder of the exchange format *)

(** Modelled from the spec: the repository exports RLE records but contains
    no decoder.  Section 4.3 prescribes it: expand each [(value, count)] pair
    by repeating [value] [count] times. A stream of odd length has a
    dangling value and is no sequence of pairs. *)
Fixpoint expandRuns (d : list Z) : option (list Z) :=
  match d with
  | [] => Some []
  | v :: c :: rest => (λ tl, replicate (Z.to_nat c) v ++ tl) <$> expandRuns rest
  | [_] => None
  end.

(** Modelled from the spec: the sentinel [-1] goes back to [transparent],
    any other value is a 0-based palette index; an index outside the palette
    is a [RecordFormatError] (section 7). *)
Definition paletteLookup (pal : list string) (v : Z) : option string :=
  if decide (v = -1) then Some transparent
  else if decide (v < 0) then None
  else pal !! Z.to_nat v.

(** Modelled from the spec: [decode(record)] of section 4.3; [None] stands
    for [RecordFormatError], raised as well when the reconstructed length
    differs from [width * height]. *)
Definition decode (r : RLEOutput) : option (list string) :=
  idxs ← expandRuns (data r);
  cells ← mapM (paletteLookup (palette r)) idxs;
  if decide (Z.of_nat (length cells) = width r * height r)
  then Some cells else None.

(** The grid of the spec's scenario: 32x32, transparent everywhere except
    at cell (0,0), that is at index [0 * 32 + 0]. *)
Definition redCornerGrid : list string :=
  <[Z.to_nat (0 * 32 + 0) := "#ff0000"]> (replicate (32 * 32) transparent).

(** ** types: PixelSize *)

Module PixelSize.
Inductive t := XS | S | M | L.

Definition value (p : t) : Z :=
  match p with XS => 32 | S => 64 | M => 128 | L => 256 end.
End PixelSize.

(** ** utils/pixelProcessor: rgbToHex *)

(** The operands of a JS bitwise operator are taken modulo 2^32 as signed
    32-bit integers, and so is its result. *)
Definition toInt32 (z : Z) : Z := (z + 2 ^ 31) mod 2 ^ 32 - 2 ^ 31.

(** [a << n]: only the low five bits of the shift count are used. *)
Definition shl (a n : Z) : Z := toInt32 (Z.shiftl (toInt32 a) (n mod 32)).

(** [Number.prototype.toString(16)] on an integer: lower-case digits, no
    leading zero, a minus sign for a negative number. *)
Definition toString16 (n : Z) : string :=
  NilZero.string_of_int (Z.to_hex_int n).

(** [s.slice(1)] *)
Definition slice1 (s : string) : string :=
  match s with
  | EmptyString => EmptyString
  | String _ tl => tl
  end.

Definition rgbToHex (r g b : Z) : string :=
  "#" +:+ slice1 (toString16 (shl 1 24 + shl r 16 + shl g 8 + b)).

(** ** utils/pixelProcessor: processImageToGrid *)

Definition threshold : Z := 60.

(** The argument of [Math.sqrt]: a sum of three [Math.pow(_, 2)]. *)
Definition sqDist (r g b rBg gBg bBg : Z) : Z :=
  (r - rBg) ^ 2 + (g - gBg) ^ 2 + (b - bBg) ^ 2.

(** [isBg = Math.sqrt(d) < threshold].  The channels are bytes, so [d] is an
    integer below 2^18 and exact as a JS number; the square root is
    correctly rounded, and a root that lies below the integer [threshold]
    misses it by more than 1/1000, far more than a rounding error.  The test
    therefore agrees with the one on the integer square root. *)
Definition isBg (r g b rBg gBg bBg : Z) : bool :=
  bool_decide (Z.sqrt (sqDist r g b rBg gBg bBg) < threshold).

(** What one iteration of the pixel loop pushes onto [hexGrid]. *)
Definition classify (rBg gBg bBg r g b a : Z) : string :=
  if bool_decide (a < 50) || isBg r g b rBg gBg bBg
  then transparent
  else rgbToHex r g b.

(** [for (let i = 0; i < data.length; i += 4)], reading [data[i]] to
    [data[i + 3]].  [None] marks a read past the end of [data]; the [data]
    of an [ImageData] holds four bytes per pixel and never incurs it. *)
Fixpoint pixelLoop (rBg gBg bBg : Z) (data : list Z) : option (list string) :=
  match data with
  | [] => Some []
  | r :: g :: b :: a :: rest =>
      (λ hexGrid, classify rBg gBg bBg r g b a :: hexGrid)
        <$> pixelLoop rBg gBg bBg rest
  | _ => None
  end.

(** The body of [img.onload] from [getImageData] on: the background
    reference is read from [data[0]], [data[1]] and [data[2]]. *)
Definition quantize (data : list Z) : option (list string) :=
  match data with
  | [] => Some []
  | rBg :: gBg :: bBg :: _ => pixelLoop rBg gBg bBg data
  | _ => None
  end.

(** What the browser does with the image before the pixels can be read:
    the image fails to load, the canvas yields no 2D context, or the image
    is drawn, smoothed, onto a [size] x [size] canvas whose RGBA bytes are
    then read back.  The parameter [size] of the source only sets the
    canvas, that is the length [4 * size * size] of [data]. *)
Inductive canvasRun :=
  | ImageError
  | NoContext
  | Drawn (data : list Z).

(** What a promise is rejected with: the event handed to [img.onerror], or
    an [Error] with its message. *)
Inductive rejection :=
  | ErrorEvent
  | JsError (message : string).

Inductive settled (A : Type) :=
  | Resolved (a : A)
  | Rejected (reason : rejection).
Arguments Resolved {A} a.
Arguments Rejected {A} reason.

Definition processImageToGrid (run : canvasRun)
  : option (settled (list string)) :=
  match run with
  | ImageError => Some (Rejected ErrorEvent)
  | NoContext => Some (Rejected (JsError "Could not get canvas context"))
  | Drawn data => Resolved <$> quantize data
  end.

(** ** components/CanvasPreview: view state *)

(** The auto-fit effect.  [width] and [height] come from
    [getBoundingClientRect] and may be fractional.  On JS numbers the
    subtraction is exact wherever its result is positive, and the division
    is exact because the sizes are powers of two, so the exact arithmetic of
    [Q] gives the scale the code computes. *)
Definition newScale (width height : Q) (size : Z) : Z :=
  let maxDim := (Qmin width height - 64)%Q in
  Z.max 1 (Qfloor (maxDim / inject_Z size)%Q).

(** ** components/CanvasPreview: tool state *)

Inductive ToolType := pencil | eraser | magic_eraser | none.

#[global] Instance ToolType_eq_dec : EqDecision ToolType.
Proof. solve_decision. Defined.

Record ToolState := MkToolState {
  activeTool : ToolType;
  brushSize : Z;
  drawColor : string
}.

(** The initial values of the three [useState] hooks. *)
Definition initialToolState : ToolState := MkToolState none 1 "#ffffff".

(** The three state setters. *)
Definition setActiveTool (t : ToolType) (st : ToolState) : ToolState :=
  MkToolState t (brushSize st) (drawColor st).

Definition setBrushSize (n : Z) (st : ToolState) : ToolState :=
  MkToolState (activeTool st) n (drawColor st).

Definition setDrawColor (c : string) (st : ToolState) : ToolState :=
  MkToolState (activeTool st) (brushSize st) c.

(** An element read from a JS array: a string, or [undefined] when the index
    is past the end or falls into a hole. *)
Inductive jsval := undefined | str (s : string).

#[global] Instance jsval_eq_dec : EqDecision jsval.
Proof. solve_decision. Defined.

(** [a[i]] *)
Definition js_get (a : list jsval) (i : Z) : jsval :=
  if decide (i < 0) then undefined else default undefined (a !! Z.to_nat i).

(** [a[i] = v] for an index [i >= 0]: an assignment past the end grows the
    array and leaves holes in between. *)
Definition js_set (i : nat) (v : jsval) (a : list jsval) : list jsval :=
  if decide (i < length a)%nat then <[i:=v]> a
  else a ++ replicate (i - length a) undefined ++ [v].

(** [a.find(p)] *)
Fixpoint js_find (p : jsval → bool) (a : list jsval) : jsval :=
  match a with
  | [] => undefined
  | c :: a' => if p c then c else js_find p a'
  end.

(** Truthiness, as tested by [if (firstColor)]. *)
Definition truthy (v : jsval) : bool :=
  match v with
  | undefined => false
  | str s => negb (bool_decide (s = ""))
  end.

(** The effect that runs whenever the [grid] prop changes identity. *)
Definition defaultToolEffect (grid : option (list jsval)) (st : ToolState)
  : ToolState :=
  match grid with
  | None => st
  | Some g =>
      let st1 := setActiveTool pencil st in
      match js_find (λ c, bool_decide (c ≠ str transparent)) g with
      | str firstColor =>
          if truthy (str firstColor) then setDrawColor firstColor st1 else st1
      | undefined => st1
      end
  end.

(** ** components/CanvasPreview: applyTool *)

(** Arrays are objects: the [grid] prop and the copy [newGrid] are
    references into a store. *)
Abbreviation loc := nat (only parsing).
Abbreviation heap := (gmap nat (list jsval)) (only parsing).

Definition M (A : Type) : Type := heap → A * heap.

Definition ret {A} (a : A) : M A := λ σ, (a, σ).

Definition bind {A B} (m : M A) (k : A → M B) : M B :=
  λ σ, let '(a, σ') := m σ in k a σ'.

Notation "'let!' x := m 'in' k" := (bind m (λ x, k))
  (at level 10, x name, m at level 100, k at level 200,
   format "'[v' 'let!'  x  :=  m  'in' '/' k ']'").
Notation "m ;;; k" := (bind m (λ _, k))
  (at level 100, k at level 200, right associativity).

(** The contents behind a reference. *)
Definition contents (l : loc) (σ : heap) : list jsval := default [] (σ !! l).

(** [[...a]]: a fresh array with the elements of [a]. *)
Definition spread (a : loc) : M loc :=
  λ σ, let l := fresh (dom σ) in (l, <[l := contents a σ]> σ).

Definition getIdx (a : loc) (i : Z) : M jsval :=
  λ σ, (js_get (contents a σ) i, σ).

(** [a[i] = v]; [applyTool] assigns only at indices [i >= 0]. *)
Definition setIdx (a : loc) (i : Z) (v : jsval) : M unit :=
  λ σ, (tt, <[a := js_set (Z.to_nat i) v (contents a σ)]> σ).

Definition lengthOf (a : loc) : M Z :=
  λ σ, (Z.of_nat (length (contents a σ)), σ).

(** A [for] loop over the values [xs] of its counter, threading the local
    variables [s] that the body assigns. *)
Fixpoint forLoop {A S} (xs : list A) (body : A → S → M S) (s : S) : M S :=
  match xs with
  | [] => ret s
  | x :: xs' => let! s' := body x s in forLoop xs' body s'
  end.

(** The body of the magic eraser's loop over [newGrid].  It assigns only
    below [newGrid.length], so the bound of the loop is the length the array
    has when the loop starts. *)
Definition eraseMatching (newGrid : loc) (targetColor : jsval) (i : Z)
  (_ : unit) : M unit :=
  let! c := getIdx newGrid i in
  if decide (c = targetColor) then setIdx newGrid i (str transparent)
  else ret tt.

(** The body of the two nested brush loops. *)
Definition paintCell (newGrid : loc) (size : Z) (newColor : string)
  (py px : Z) (hasChanged : bool) : M bool :=
  if decide (px >= 0 ∧ px < size ∧ py >= 0 ∧ py < size) then
    let idx := py * size + px in
    let! c := getIdx newGrid idx in
    if decide (c ≠ str newColor) then
      setIdx newGrid idx (str newColor) ;;; ret true
    else ret hasChanged
  else ret hasChanged.

(** [applyTool(x, y)] in a component whose props are [grid] and [size] and
    whose tool state is [ts].  The result is the argument of the call
    [onGridUpdate(newGrid)], or [None] when the callback is not invoked. *)
Definition applyTool (grid : option loc) (size : Z) (ts : ToolState)
  (x y : Z) : M (option loc) :=
  match grid with
  | None => ret None
  | Some grid =>
      if decide (x < 0 ∨ x >= size ∨ y < 0 ∨ y >= size) then ret None
      else
        let index := y * size + x in
        let! newGrid := spread grid in
        let! hasChanged :=
          (if decide (activeTool ts = magic_eraser) then
             let! targetColor := getIdx grid index in
             if decide (targetColor ≠ str transparent) then
               let! n := lengthOf newGrid in
               forLoop (seqZ 0 n) (eraseMatching newGrid targetColor) tt ;;;
               ret true
             else ret false
           else
             let halfBrush := brushSize ts / 2 in
             let startX := x - halfBrush in
             let startY := y - halfBrush in
             let endX := startX + brushSize ts in
             let endY := startY + brushSize ts in
             let newColor :=
               if decide (activeTool ts = pencil) then drawColor ts
               else transparent in
             forLoop (seqZ startY (endY - startY))
               (λ py, forLoop (seqZ startX (endX - startX))
                        (paintCell newGrid size newColor py))
               false) in
        if hasChanged then ret (Some newGrid) else ret None
  end.

(** The grid the consumers hold after the call: the one handed to
    [onGridUpdate], or still the old one. *)
Definition gridAfter (grid : loc) (res : option loc * heap) : list jsval :=
  match res.1 with
  | Some newGrid => contents newGrid res.2
  | None => contents grid res.2
  end.

(** ** The loops of applyTool as functions of the array *)

(** The bounds test of [applyTool], on the anchor and on every brush cell. *)
Definition inBounds (size px py : Z) : Prop :=
  px >= 0 ∧ px < size ∧ py >= 0 ∧ py < size.

(** [newGrid] is reachable from nowhere else until it is handed to
    [onGridUpdate], so each loop of [applyTool] acts on the contents of that
    one array; the folds below are the loop bodies read as functions of the
    contents and of the locals. *)
Definition eraseStep (targetColor : jsval) (acc : list jsval * unit) (i : Z)
  : list jsval * unit :=
  (if decide (js_get acc.1 i = targetColor)
   then js_set (Z.to_nat i) (str transparent) acc.1
   else acc.1, tt).

Definition paintStep (size : Z) (newColor : string) (py : Z)
  (acc : list jsval * bool) (px : Z) : list jsval * bool :=
  if decide (px >= 0 ∧ px < size ∧ py >= 0 ∧ py < size) then
    if decide (js_get acc.1 (py * size + px) ≠ str newColor)
    then (js_set (Z.to_nat (py * size + px)) (str newColor) acc.1, true)
    else acc
  else acc.

Definition paintRow (size : Z) (newColor : string) (xs : list Z)
  (acc : list jsval * bool) (py : Z) : list jsval * bool :=
  foldl (paintStep size newColor py) acc xs.

Definition paintRows (size : Z) (newColor : string) (ys xs : list Z)
  (acc : list jsval * bool) : list jsval * bool :=
  foldl (paintRow size newColor xs) acc ys.

(** What the magic eraser leaves in the array. *)
Definition eraseColor (targetColor : jsval) (a : list jsval) : list jsval :=
  (λ c, if decide (c = targetColor) then str transparent else c) <$> a.

(** The brush footprint anchored at [(x, y)], in the words of the design:
    the square that spans [x - half .. x - half + brushSize - 1], and
    likewise in [y], with [half = floor(brushSize / 2)]. *)
Definition inFootprint (brush x y px py : Z) : Prop :=
  x - brush / 2 ≤ px ≤ x - brush / 2 + brush - 1
  ∧ y - brush / 2 ≤ py ≤ y - brush / 2 + brush - 1.

#[global] Instance inFootprint_dec brush x y px py :
  Decision (inFootprint brush x y px py).
Proof. unfold inFootprint. apply _. Defined.

(** The colour a brush tool writes. *)
Definition brushColor (ts : ToolState) : string :=
  if decide (activeTool ts = pencil) then drawColor ts else transparent.

(** The invariant of both brush loops: the cells of the footprint visited so
    far hold [newColor], every other cell is as before, the length is kept,
    and an unraised flag means an untouched array. *)
Definition painted (size : Z) (newColor : string) (visited : Z → Z → Prop)
  (c0 : list jsval) (hc0 : bool) (acc : list jsval * bool) : Prop :=
  (∀ px py, visited px py → inBounds size px py →
     js_get acc.1 (py * size + px) = str newColor)
  ∧ (∀ j,
       (∀ px py, visited px py → inBounds size px py → j ≠ py * size + px) →
       js_get acc.1 j = js_get c0 j)
  ∧ (size * size ≤ Z.of_nat (length c0) → length acc.1 = length c0)
  ∧ (acc.2 = true ∨ acc = (c0, hc0)).

(** A 2x2 grid, and a store that holds it, to run the editor on. *)
Definition sampleGrid : list jsval :=
  [str "#ff0000"; str "#00ff00"; str "#00ff00"; str transparent].

Definition sampleStore : gmap nat (list jsval) := {[ 0%nat := sampleGrid ]}.

(** ** Vocabulary for the properties of the export *)

(** [c] occurs in [l], and [d] does not occur at or before the first
    occurrence of [c]. *)
Definition occursBefore (l : list string) (c d : string) : Prop :=
  ∃ k : nat, l !! k = Some c ∧ ∀ m : nat, (m ≤ k)%nat → l !! m ≠ Some d.

(** The [(value, count)] pairs of a flat stream; a dangling last value is
    no pair. *)
Fixpoint runsOf (d : list Z) : list (Z * Z) :=
  match d with
  | v :: c :: rest => (v, c) :: runsOf rest
  | _ => []
  end.

(** The flat stream of a list of pairs. *)
Definition flattenRuns (runs : list (Z * Z)) : list Z :=
  runs ≫= λ r, [r.1; r.2].

(** No two neighbours of the list are equal. *)
Definition neighboursDiffer (vs : list Z) : Prop :=
  ∀ (i : nat) v v', vs !! i = Some v → vs !! S i = Some v' → v ≠ v'.

(** The sixteen hexadecimal digits, as [toString(16)] prints them. *)
Definition hexChar (k : Z) : Ascii.ascii :=
  match k with
  | 0 => "0" | 1 => "1" | 2 => "2" | 3 => "3" | 4 => "4" | 5 => "5"
  | 6 => "6" | 7 => "7" | 8 => "8" | 9 => "9" | 10 => "a" | 11 => "b"
  | 12 => "c" | 13 => "d" | 14 => "e" | _ => "f"
  end%char.

(** A byte as two hexadecimal digits. *)
Definition hex2 (v : Z) : string :=
  String (hexChar (v / 16)) (String (hexChar (v mod 16)) EmptyString).

(** The digit [k] put in front of the hexadecimal numeral [d]. *)
Definition hexCons (k : Z) (d : Hexadecimal.uint) : Hexadecimal.uint :=
  match k with
  | 0 => Hexadecimal.D0 d | 1 => Hexadecimal.D1 d | 2 => Hexadecimal.D2 d
  | 3 => Hexadecimal.D3 d | 4 => Hexadecimal.D4 d | 5 => Hexadecimal.D5 d
  | 6 => Hexadecimal.D6 d | 7 => Hexadecimal.D7 d | 8 => Hexadecimal.D8 d
  | 9 => Hexadecimal.D9 d | 10 => Hexadecimal.Da d | 11 => Hexadecimal.Db d
  | 12 => Hexadecimal.Dc d | 13 => Hexadecimal.Dd d | 14 => Hexadecimal.De d
  | _ => Hexadecimal.Df d
  end.

(** What the brush loops keep besides [painted]: a cell either is as it was
    or holds the brush colour, and a raised flag has a cell to show for it
    that did not hold the brush colour before. *)
Definition repainted (newColor : string) (old : list jsval)
  (acc : list jsval * bool) : Prop :=
  (∀ j, js_get acc.1 j = js_get old j ∨ js_get acc.1 j = str newColor)
  ∧ (acc.2 = true →
     ∃ j, js_get acc.1 j = str newColor ∧ js_get old j ≠ str newColor).

(** ** components/CanvasPreview: pointer events *)

(** The fields that the handlers read: of a pointer its client position, of
    the canvas its bounding rectangle.  Positions are CSS pixels and may be
    fractional; the arithmetic on them is taken as exact. *)
Record Pointer := MkPointer { clientX : Q; clientY : Q }.

Record DOMRect := MkDOMRect { rectLeft : Q; rectTop : Q }.

Inductive pointerEvent :=
  | MouseEvent (p : Pointer)
  | TouchEvent (touches : list Pointer).

(** [getPixelCoords] returns [null] without a canvas, and reading
    [e.touches[0].clientX] of an event without touches is a [TypeError]. *)
Inductive coords :=
  | NullCoords
  | Coords (x y : Z)
  | CoordsTypeError.

Definition getPixelCoords (canvasRect : option DOMRect) (scale : Z)
  (e : pointerEvent) : coords :=
  match canvasRect with
  | None => NullCoords
  | Some rect =>
      let client :=
        match e with
        | TouchEvent touches => head touches
        | MouseEvent p => Some p
        end in
      match client with
      | None => CoordsTypeError
      | Some p =>
          Coords
            (Qfloor ((clientX p - rectLeft rect) / inject_Z scale)%Q)
            (Qfloor ((clientY p - rectTop rect) / inject_Z scale)%Q)
      end
  end.

(** ** components/CanvasPreview: the component between two events *)

(** Props and state of a mounted [CanvasPreview], as one render sees them:
    the props [grid] and [size], the tool state, [isDragging], [scale], and
    the rectangle of the canvas element ([None] while there is none). *)
Record Preview := MkPreview {
  gridProp : option nat;
  sizeProp : Z;
  tools : ToolState;
  isDragging : bool;
  scale : Z;
  canvasRect : option DOMRect
}.

Definition withGrid (g : option nat) (pv : Preview) : Preview :=
  MkPreview g (sizeProp pv) (tools pv) (isDragging pv) (scale pv)
    (canvasRect pv).

Definition withTools (ts : ToolState) (pv : Preview) : Preview :=
  MkPreview (gridProp pv) (sizeProp pv) ts (isDragging pv) (scale pv)
    (canvasRect pv).

Definition setIsDragging (b : bool) (pv : Preview) : Preview :=
  MkPreview (gridProp pv) (sizeProp pv) (tools pv) b (scale pv)
    (canvasRect pv).

(** [applyTool] as the handlers call it: on the props and state of the
    render, with [onGridUpdate] bound to the parent's [setGridData], which
    makes the array handed over the next [grid] prop. *)
Definition applyToolAt (x y : Z) (pv : Preview) : M Preview :=
  let! updated := applyTool (gridProp pv) (sizeProp pv) (tools pv) x y in
  match updated with
  | Some newGrid => ret (withGrid (Some newGrid) pv)
  | None => ret pv
  end.

Definition handleMouseDown (p : Pointer) (pv : Preview) : M Preview :=
  let pv' := setIsDragging true pv in
  match getPixelCoords (canvasRect pv) (scale pv) (MouseEvent p) with
  | Coords x y => applyToolAt x y pv'
  | _ => ret pv'
  end.

Definition handleMouseMove (p : Pointer) (pv : Preview) : M Preview :=
  if negb (isDragging pv)
     || bool_decide (activeTool (tools pv) = magic_eraser)
  then ret pv
  else
    match getPixelCoords (canvasRect pv) (scale pv) (MouseEvent p) with
    | Coords x y => applyToolAt x y pv
    | _ => ret pv
    end.

Definition handleMouseUp (pv : Preview) : Preview := setIsDragging false pv.

(** What the user can do to the component: the three mouse handlers of the
    canvas and its container, and the three controls of the toolbar. *)
Inductive uiEvent :=
  | MouseDown (p : Pointer)
  | MouseMove (p : Pointer)
  | MouseUp
  | MouseLeave
  | PickTool (t : ToolType)
  | PickBrushSize (n : Z)
  | PickColor (c : string).

Definition handle (ev : uiEvent) (pv : Preview) : M Preview :=
  match ev with
  | MouseDown p => handleMouseDown p pv
  | MouseMove p => handleMouseMove p pv
  | MouseUp | MouseLeave => ret (handleMouseUp pv)
  | PickTool t => ret (withTools (setActiveTool t (tools pv)) pv)
  | PickBrushSize n => ret (withTools (setBrushSize n (tools pv)) pv)
  | PickColor c => ret (withTools (setDrawColor c (tools pv)) pv)
  end.

(** The effect with dependency [[grid]] runs after a render in which the
    [grid] prop is another array than in the render before. *)
Definition afterRender (before now : Preview) : M Preview :=
  if decide (gridProp now = gridProp before) then ret now
  else λ σ,
    (withTools
       (defaultToolEffect ((λ g, contents g σ) <$> gridProp now) (tools now))
       now, σ).

(** One event: the handler runs on the current render, the component
    renders again, and the effects have run before the next event. *)
Definition dispatch (ev : uiEvent) (pv : Preview) : M Preview :=
  let! now := handle ev pv in afterRender pv now.

(** A sequence of events. *)
Fixpoint dispatchAll (evs : list uiEvent) (pv : Preview) : M Preview :=
  match evs with
  | [] => ret pv
  | ev :: evs' => let! pv' := dispatch ev pv in dispatchAll evs' pv'
  end.

(** A grid as the quantizer hands it over: one string per cell of the
    canvas. *)
Definition wellFormed (size : Z) (content : list jsval) : Prop :=
  Z.of_nat (length content) = size * size ∧ undefined ∉ content.

(** The component shows a well-formed grid that lives in the store. *)
Definition holdsGrid (pv : Preview) (σ : gmap nat (list jsval)) : Prop :=
  ∃ g content,
    gridProp pv = Some g ∧ σ !! g = Some content
    ∧ wellFormed (sizeProp pv) content.

(** The store [σ'] has every array of the store [σ], unchanged. *)
Definition extends (σ σ' : gmap nat (list jsval)) : Prop :=
  ∀ l c, σ !! l = Some c → σ' !! l = Some c.

(** ** Drawing on a canvas *)

(** A 2D context is followed through the calls made on it; a [fillRect] is
    recorded with the fill style in force.  Assigning to [fillStyle] a
    string that is no CSS colour leaves the style as it was; which strings
    are colours is the browser's business, [isColor] below. *)
Inductive canvasCall :=
  | ClearRect (x y w h : Z)
  | FillRect (style : string) (x y w h : Z).

Record context2d := MkContext {
  fillStyle : string;
  calls : list canvasCall
}.

(** The context of a fresh canvas: the default fill style is black. *)
Definition newContext : context2d := MkContext "#000000" [].

Definition setFillStyle (isColor : string → bool) (c : string)
  (ctx : context2d) : context2d :=
  if isColor c then MkContext c (calls ctx) else ctx.

Definition fillRect (x y w h : Z) (ctx : context2d) : context2d :=
  MkContext (fillStyle ctx) (calls ctx ++ [FillRect (fillStyle ctx) x y w h]).

Definition clearRect (x y w h : Z) (ctx : context2d) : context2d :=
  MkContext (fillStyle ctx) (calls ctx ++ [ClearRect x y w h]).

(** [a.forEach((v, i) => ...)] on a dense array, from index [i] on; [s] is
    what the callback changes. *)
Fixpoint forEachFrom {A S} (i : Z) (a : list A) (f : A → Z → S → S) (s : S)
  : S :=
  match a with
  | [] => s
  | v :: a' => forEachFrom (i + 1) a' f (f v i s)
  end.

(** The callback of the draw effect.  On indices, which are not negative,
    and for a positive size, [%] is the remainder and
    [Math.floor(i / size)] the quotient. *)
Definition drawCell (isColor : string → bool) (size : Z) (color : string)
  (i : Z) (ctx : context2d) : context2d :=
  let x := Z.rem i size in
  let y := i / size in
  let ctx :=
    if decide (color = transparent) then
      setFillStyle isColor
        (if decide (Z.rem (x + y) 2 = 0) then "#1e293b" else "#334155") ctx
    else setFillStyle isColor color ctx in
  fillRect x y 1 1 ctx.

(** The draw effect of [CanvasPreview], on the context of its canvas; it
    returns at once without a canvas or context ([None]) or without a
    grid. *)
Definition drawGrid (isColor : string → bool) (grid : option (list string))
  (size : Z) (ctx : option context2d) : option context2d :=
  match ctx, grid with
  | Some ctx, Some grid =>
      Some (forEachFrom 0 grid (drawCell isColor size)
              (clearRect 0 0 size size ctx))
  | _, _ => ctx
  end.

(** ** utils/pixelProcessor: downloadCanvasAsPng *)

Definition exportScale : Z := 10.

(** The callback of the export: transparent cells are skipped. *)
Definition exportCell (isColor : string → bool) (size : Z) (color : string)
  (index : Z) (ctx : context2d) : context2d :=
  if decide (color = transparent) then ctx
  else
    let x := Z.rem index size in
    let y := index / size in
    fillRect (x * exportScale) (y * exportScale) exportScale exportScale
      (setFillStyle isColor color ctx).

(** What [downloadCanvasAsPng] produces: a canvas of the given dimensions,
    the calls drawn on it, and the file name of the download link. *)
Record exportFile := MkExportFile {
  canvasWidth : Z;
  canvasHeight : Z;
  drawn : list canvasCall;
  download : string
}.

(** [`${n}`] for an integer [n]. *)
Definition decimal (n : Z) : string :=
  DecimalString.NilZero.string_of_int (Z.to_int n).

(** [downloadCanvasAsPng(grid, size)]; [hasContext] tells whether the new
    canvas yields a 2D context, [now] is [Date.now()].  Without a context
    nothing is downloaded. *)
Definition downloadCanvasAsPng (isColor : string → bool) (hasContext : bool)
  (now : Z) (grid : list string) (size : Z) : option exportFile :=
  if hasContext then
    let ctx := forEachFrom 0 grid (exportCell isColor size) newContext in
    Some (MkExportFile (size * exportScale) (size * exportScale) (calls ctx)
            ("pixelart-" +:+ decimal size +:+ "x" +:+ decimal size +:+ "-"
             +:+ decimal now +:+ ".png"))
  else None.

(** The call paints the pixel [(X, Y)]. *)
Definition covers (k : canvasCall) (X Y : Z) : Prop :=
  match k with
  | ClearRect x y w h | FillRect _ x y w h =>
      x ≤ X < x + w ∧ y ≤ Y < y + h
  end.

(** The colour in which the preview shows a cell: its own, or one of the
    two greys of the checkerboard. *)
Definition shownColor (color : string) (x y : Z) : string :=
  if decide (color = transparent)
  then if decide (Z.rem (x + y) 2 = 0) then "#1e293b" else "#334155"
  else color.

(** ** services/geminiService: generatePixelArtImage *)

(** The [switch] on the size; a size that is no [PixelSize] leaves the
    style guide empty, which the type excludes. *)
Definition styleGuide (size : PixelSize.t) : string :=
  match size with
  | PixelSize.XS =>
      "very minimalist, low-res pixel art, iconic style, NES era graphics, distinct large pixels, limited color palette."
  | PixelSize.S =>
      "SNES era pixel art, 16-bit style, moderate detail, clean outlines."
  | PixelSize.M =>
      "high quality pixel art, Playstation 1 era 2D sprite, detailed shading and lighting."
  | PixelSize.L =>
      "HD pixel art, very detailed, modern indie game aesthetic, complex textures."
  end.

(** A line break of the template literal, with the two blanks that indent
    the line after it. *)
Definition br : string := String (ascii_of_nat 10) "  ".

Definition finalPrompt (prompt : string) (size : PixelSize.t) : string :=
  "Create a single pixel art sprite of: " +:+ prompt +:+ "." +:+ br
  +:+ br +:+ "Critical Requirements:"
  +:+ br +:+ "1. Style: " +:+ styleGuide size
  +:+ br +:+ "2. Background: Solid Black (#000000). This is crucial for background removal."
  +:+ br +:+ "3. Outlines: Use Dark Gray (#222222) or colored outlines instead of pure black (#000000) for the sprite itself, to distinguish it from the background."
  +:+ br +:+ "4. View: Full view, centered."
  +:+ br +:+ "5. Format: Pixel art style is mandatory. Sharp edges, no blur."
  +:+ br.

(** The parts of the answer that the function reads. *)
Record InlineData := MkInlineData { mimeType : string; base64Data : string }.

Record Part := MkPart { inlineData : option InlineData }.

Record Content := MkContent { parts : option (list Part) }.

Record Candidate := MkCandidate { content : option Content }.

Record Response := MkResponse { candidates : option (list Candidate) }.

(** [response.candidates?.[0]?.content?.parts || []] *)
Definition partsOf (response : Response) : list Part :=
  match candidates response with
  | Some (candidate :: _) =>
      match content candidate with
      | Some c => default [] (parts c)
      | None => []
      end
  | _ => []
  end.

(** The loop over the parts: the first part with inline data ends it. *)
Fixpoint firstInline (ps : list Part) : option string :=
  match ps with
  | [] => None
  | p :: ps' =>
      match inlineData p with
      | Some d => Some ("data:" +:+ mimeType d +:+ ";base64," +:+ base64Data d)
      | None => firstInline ps'
      end
  end.

(** What the call of the model does: it throws, or it returns an answer. *)
Inductive apiOutcome :=
  | ApiThrows (err : rejection)
  | ApiReturns (response : Response).

(** [generateContent] stands for the call of the model, as a function of the
    text it is sent.  An error is logged and thrown again. *)
Definition generatePixelArtImage (generateContent : string → apiOutcome)
    (prompt : string) (size : PixelSize.t) : settled string :=
  match generateContent (finalPrompt prompt size) with
  | ApiThrows err => Rejected err
  | ApiReturns response =>
      match firstInline (partsOf response) with
      | Some url => Resolved url
      | None => Rejected (JsError "No image generated.")
      end
  end.

(** * Theorems *)

(** ** The RLE codec *)

Section codec.
Implicit Types (grid pal : list string) (c : string) (d xs ys : list Z).

(** The expansion of a stream is built pair by pair, so that of a
    concatenation splits at every pair boundary. *)
Lemma expandRuns_app d1 d2 ys :
  expandRuns d1 = Some ys →
  expandRuns (d1 ++ d2) = (λ tl, ys ++ tl) <$> expandRuns d2.
Proof.
  revert ys. induction (Nat.lt_wf_0_projected length d1) as [d1 _ IH].
  intros ys Hd1. destruct d1 as [|v [|c rest]]; simplify_eq/=.
  - by destruct (expandRuns d2).
  - destruct (expandRuns rest) as [tl|] eqn:Hrest; simplify_eq/=.
    rewrite (IH rest ltac:(simpl; lia) tl Hrest).
    destruct (expandRuns d2); simpl; [|done].
    by rewrite (assoc_L (++)).
Qed.

Lemma expandRuns_snoc d v k ys :
  expandRuns d = Some ys →
  expandRuns (d ++ [v; k]) = Some (ys ++ replicate (Z.to_nat k) v).
Proof.
  intros Hd. rewrite (expandRuns_app _ _ _ Hd). simpl.
  by rewrite (right_id_L [] (++)).
Qed.

(** Loop invariant of the run-length loop: the runs pushed so far, followed
    by the run being counted, expand to the prefix already scanned. *)
Lemma rle_loop_invariant rest st ys :
  expandRuns (rleData st) = Some ys →
  0 ≤ currentCount st →
  expandRuns (rleData (foldl rleStep st rest)
              ++ [currentVal (foldl rleStep st rest);
                  currentCount (foldl rleStep st rest)])
  = Some (ys ++ replicate (Z.to_nat (currentCount st)) (currentVal st) ++ rest).
Proof.
  revert st ys. induction rest as [|v rest IH]; intros st ys Hys Hcnt; simpl.
  - rewrite (right_id_L [] (++)). by apply expandRuns_snoc.
  - destruct (decide (v = currentVal st)) as [->|Hne].
    + rewrite (IH (rleStep st (currentVal st)) ys);
        unfold rleStep; rewrite decide_True by done; simpl; [|done|lia].
      replace (Z.to_nat (currentCount st + 1))
        with (S (Z.to_nat (currentCount st))) by lia.
      by rewrite replicate_S_end, <-!(assoc_L (++)).
    + set (run := replicate (Z.to_nat (currentCount st)) (currentVal st)).
      rewrite (IH (rleStep st v) (ys ++ run)); subst run;
        unfold rleStep; rewrite decide_False by done; simpl;
        [|by apply expandRuns_snoc|lia].
      by rewrite <-!(assoc_L (++)).
Qed.

Lemma expandRuns_runLengthEncode xs :
  expandRuns (runLengthEncode xs) = Some xs.
Proof.
  destruct xs as [|v0 rest]; [done|]. unfold runLengthEncode.
  by rewrite (rle_loop_invariant rest (RleState [] v0 1) []).
Qed.

(** A [Set] holds exactly the values that were added to it. *)
Lemma elem_of_foldl_set_add c acc (l : list string) :
  c ∈ foldl set_add acc l ↔ c ∈ acc ∨ c ∈ l.
Proof.
  revert acc. induction l as [|d l IH]; intros acc; simpl.
  - rewrite elem_of_nil. tauto.
  - rewrite IH, elem_of_cons. unfold set_add.
    destruct (decide (d ∈ acc)) as [Hd|Hd].
    + split; [tauto|]. intros [?|[->|?]]; tauto.
    + rewrite elem_of_app, list_elem_of_singleton. tauto.
Qed.

Lemma elem_of_extractPalette c grid :
  c ∈ extractPalette grid ↔ c ∈ grid ∧ c ≠ transparent.
Proof.
  unfold extractPalette, array_from_set.
  rewrite elem_of_foldl_set_add, list_elem_of_filter, elem_of_nil. tauto.
Qed.

Lemma indexOf_from_lookup (l : list string) c i :
  c ∈ l →
  ∃ n : nat, indexOf_from i l c = i + Z.of_nat n ∧ l !! n = Some c.
Proof.
  revert i. induction l as [|d l IH]; intros i Hin.
  { by apply elem_of_nil in Hin. }
  simpl. case_decide as Hd.
  - exists 0%nat. subst. split; [lia|done].
  - apply elem_of_cons in Hin as [->|Hin]; [done|].
    destruct (IH (i + 1) Hin) as (n & -> & Hn).
    exists (S n). split; [lia|done].
Qed.

Lemma paletteLookup_indexOf pal c :
  c ∈ pal → paletteLookup pal (indexOf pal c) = Some c.
Proof.
  intros Hin. destruct (indexOf_from_lookup pal c 0 Hin) as (n & Hn & Hl).
  unfold indexOf, paletteLookup. rewrite Hn.
  rewrite !decide_False by lia. by rewrite Z.add_0_l, Nat2Z.id.
Qed.

(** Translating the index sequence back through the palette of the same
    grid gives the grid. *)
Lemma mapM_paletteLookup_rawIndices pal grid :
  (∀ c, c ∈ grid → c ≠ transparent → c ∈ pal) →
  mapM (paletteLookup pal) (rawIndicesOf pal grid) = Some grid.
Proof.
  unfold rawIndicesOf. induction grid as [|c grid IH]; intros Hpal; [done|].
  rewrite fmap_cons. simpl mapM.
  assert (paletteLookup pal
            (if decide (c = transparent) then -1 else indexOf pal c)
          = Some c) as ->.
  { case_decide as Hc; [by subst|].
    apply paletteLookup_indexOf, Hpal; [apply elem_of_cons; by left|done]. }
  rewrite IH; [done|]. intros d Hd. apply Hpal, elem_of_cons. by right.
Qed.
End codec.

(** C1. Round-trip law of the RLE codec: for every grid whose length is
    [size * size], decoding the record that [generateCodeSnippet] builds
    (expanding the runs, translating the indices back through the record's
    palette and the sentinel back to [transparent], checking the length)
    succeeds and gives back exactly the grid. *)
Theorem decode_generateCodeSnippet (g : list string) (size : Z) :
  Z.of_nat (length g) = size * size →
  decode (generateCodeSnippet g size) = Some g.
Proof.
  intros Hlen. unfold decode, generateCodeSnippet. simpl.
  rewrite expandRuns_runLengthEncode. simpl.
  rewrite mapM_paletteLookup_rawIndices; simpl.
  - by rewrite decide_True.
  - intros c Hc Hne. by apply elem_of_extractPalette.
Qed.

Lemma decode_generateCodeSnippet_witness :
  Z.of_nat (length ["#00ff00"; transparent; "#0000ff"; "#00ff00"]) = 2 * 2
  ∧ decode
      (generateCodeSnippet ["#00ff00"; transparent; "#0000ff"; "#00ff00"] 2)
    = Some ["#00ff00"; transparent; "#0000ff"; "#00ff00"].
Proof.
  split; [reflexivity|].
  apply (decode_generateCodeSnippet
           ["#00ff00"; transparent; "#0000ff"; "#00ff00"] 2).
  reflexivity.
Defined.

(** C6. Concrete RLE scenario: for the 32x32 grid that is all transparent
    except cell (0,0) = "#ff0000", the export has palette ["#ff0000"] and
    data [0, 1, -1, 1023], and decoding that record reproduces the grid. *)
Theorem generateCodeSnippet_redCorner :
  generateCodeSnippet redCornerGrid 32
  = MkRLEOutput "RLE (Value, Count)" 32 32 ["#ff0000"] [0; 1; -1; 1023]
  ∧ palette (generateCodeSnippet redCornerGrid 32) = ["#ff0000"]
  ∧ data (generateCodeSnippet redCornerGrid 32) = [0; 1; -1; 1023]
  ∧ decode
      (MkRLEOutput "RLE (Value, Count)" 32 32 ["#ff0000"] [0; 1; -1; 1023])
    = Some redCornerGrid.
Proof. by vm_compute. Qed.

(** ** The quantizer *)

Section quantizer.
Implicit Types (data : list Z) (hexGrid : list string).



Lemma toInt32_small z : - 2 ^ 31 ≤ z < 2 ^ 31 → toInt32 z = z.
Proof. intros Hz. unfold toInt32. rewrite Z.mod_small; lia. Qed.

(** A left shift that stays below 2^31 is a multiplication. *)
Lemma shl_small v n :
  0 ≤ v → 0 ≤ n < 32 → v * 2 ^ n < 2 ^ 31 → shl v n = v * 2 ^ n.
Proof.
  intros Hv Hn Hlt. unfold shl.
  assert (1 ≤ 2 ^ n) by (apply (Z.pow_le_mono_r 2 0 n); lia).
  rewrite (toInt32_small v) by nia.
  rewrite (Z.mod_small n) by lia. rewrite Z.shiftl_mul_pow2 by lia.
  apply toInt32_small. nia.
Qed.

(** On bytes no shift of [rgbToHex] wraps around. *)
Lemma rgbToHex_bytes r g b :
  0 ≤ r < 256 → 0 ≤ g < 256 → 0 ≤ b < 256 →
  rgbToHex r g b
  = "#" +:+ slice1 (toString16 (2 ^ 24 + r * 2 ^ 16 + g * 2 ^ 8 + b)).
Proof.
  intros Hr Hg Hb. unfold rgbToHex.
  rewrite (shl_small 1 24), (shl_small r 16), (shl_small g 8) by lia.
  by rewrite Z.mul_1_l.
Qed.

Lemma rgbToHex_opaque r g b : rgbToHex r g b ≠ transparent.
Proof. unfold rgbToHex. discriminate. Qed.

(** The pixel loop is defined on every array of four channels per pixel,
    and cell [i] of its output is computed from channels [4 i .. 4 i + 3]. *)
Lemma pixelLoop_lookup rBg gBg bBg (n : nat) data :
  length data = (4 * n)%nat →
  ∃ hexGrid,
    pixelLoop rBg gBg bBg data = Some hexGrid
    ∧ length hexGrid = n
    ∧ ∀ i : nat, (i < n)%nat →
        hexGrid !! i
        = Some (classify rBg gBg bBg
                  (data !!! (4 * i)%nat) (data !!! (4 * i + 1)%nat)
                  (data !!! (4 * i + 2)%nat) (data !!! (4 * i + 3)%nat)).
Proof.
  revert data. induction n as [|n IH]; intros data Hlen.
  - destruct data; [|done]. exists []. split_and!; [done..|]. lia.
  - destruct data as [|r [|g [|b [|a rest]]]]; simpl in Hlen; try lia.
    destruct (IH rest ltac:(lia)) as (hg & Hloop & Hhg & Hcell).
    exists (classify rBg gBg bBg r g b a :: hg).
    split_and!; [simpl; by rewrite Hloop|simpl; lia|].
    intros [|i] Hi; [done|].
    assert (∀ j : nat, (r :: g :: b :: a :: rest) !!! (4 + j)%nat = rest !!! j)
      as Hshift by done.
    replace (4 * S i + 1)%nat with (4 + (4 * i + 1))%nat by lia.
    replace (4 * S i + 2)%nat with (4 + (4 * i + 2))%nat by lia.
    replace (4 * S i + 3)%nat with (4 + (4 * i + 3))%nat by lia.
    replace (4 * S i)%nat with (4 + 4 * i)%nat by lia.
    rewrite !Hshift, <-(Hcell i) by lia. done.
Qed.

Lemma quantize_defined (n : nat) data :
  length data = (4 * n)%nat →
  ∃ hexGrid,
    quantize data = Some hexGrid
    ∧ length hexGrid = n
    ∧ ∀ i : nat, (i < n)%nat →
        hexGrid !! i
        = Some (classify (data !!! 0%nat) (data !!! 1%nat) (data !!! 2%nat)
                  (data !!! (4 * i)%nat) (data !!! (4 * i + 1)%nat)
                  (data !!! (4 * i + 2)%nat) (data !!! (4 * i + 3)%nat)).
Proof.
  intros Hlen. destruct data as [|rBg [|gBg [|bBg rest]]];
    try (simpl in Hlen; lia).
  - destruct n; [|done]. exists []. split_and!; [done..|]. lia.
  - by apply pixelLoop_lookup.
Qed.
End quantizer.



(** C9. For every quantized bitmap of a positive size, cell 0 of the output
    grid, the top-left corner that serves as the background reference, is
    [transparent]: its distance to the reference is 0. *)
Theorem processImageToGrid_corner_transparent (size : Z) (data : list Z) :
  0 < size →
  Z.of_nat (length data) = 4 * size * size →
  ∃ hexGrid,
    processImageToGrid (Drawn data) = Some (Resolved hexGrid)
    ∧ hexGrid !! 0%nat = Some transparent.
Proof.
  intros Hsize Hlen.
  destruct (quantize_defined (Z.to_nat (size * size)) data ltac:(lia))
    as (hexGrid & Hq & Hhg & Hcell).
  exists hexGrid. simpl. rewrite Hq. split; [done|].
  rewrite (Hcell 0%nat) by nia. f_equal.
  change (4 * 0)%nat with 0%nat. change (0 + 1)%nat with 1%nat.
  change (0 + 2)%nat with 2%nat. unfold classify, isBg, sqDist.
  rewrite !Z.sub_diag. simpl. by rewrite orb_true_r.
Qed.

Lemma processImageToGrid_corner_transparent_witness :
  ∃ hexGrid,
    processImageToGrid (Drawn [12; 200; 7; 255]) = Some (Resolved hexGrid)
    ∧ hexGrid !! 0%nat = Some transparent.
Proof.
  apply (processImageToGrid_corner_transparent 1 [12; 200; 7; 255]).
  - lia.
  - reflexivity.
Defined.

(** ** The viewport scale *)

Section viewport.
#[local] Open Scope Q_scope.

(** [Math.floor] of a quotient by a positive integer, by its defining
    property. *)
Lemma Qfloor_div_bounds (m : Q) (size : Z) :
  (0 < size)%Z →
  inject_Z (Qfloor (m / inject_Z size) * size) <= m
  ∧ m < inject_Z ((Qfloor (m / inject_Z size) + 1) * size).
Proof.
  intros Hsize.
  assert (0 < inject_Z size) as Hpos.
  { change 0 with (inject_Z 0). by rewrite <-Zlt_Qlt. }
  assert (m == m / inject_Z size * inject_Z size) as Hm.
  { field. intros Hz. rewrite Hz in Hpos. by apply Qlt_irrefl in Hpos. }
  rewrite !inject_Z_mult. split.
  - rewrite Hm at 2. apply Qmult_le_r; [done|]. apply Qfloor_le.
  - rewrite Hm at 1. apply Qmult_lt_r; [done|]. apply Qlt_floor.
Qed.

Lemma Qfloor_div_lt_1 (m : Q) (size : Z) :
  (0 < size)%Z → m < inject_Z size → (Qfloor (m / inject_Z size) < 1)%Z.
Proof.
  intros Hsize Hlt.
  destruct (Qfloor_div_bounds m size Hsize) as [Hlo _].
  apply Z.lt_nge. intros Hge.
  assert (inject_Z size <= inject_Z (Qfloor (m / inject_Z size) * size)) as Hle.
  { rewrite <-Zle_Qle. nia. }
  apply (Qlt_irrefl m). eapply Qlt_le_trans; [exact Hlt|].
  eapply Qle_trans; [exact Hle|exact Hlo].
Qed.
End viewport.

(** C7. Viewport scaler: for every container width and height and every
    positive size, the scale is
    [max(1, floor((min(width, height) - 64) / size))], an integer of at least
    1: where the padded container holds at least one cell row it is the
    greatest number of [size]-wide cells that fit, otherwise it is 1; for a
    500 x 500 container and size 64 it is 6. *)
Theorem newScale_formula (containerWidth containerHeight : Q) (size : Z) :
  0 < size →
  let maxDim := (Qmin containerWidth containerHeight - 64)%Q in
  let scale := newScale containerWidth containerHeight size in
  scale = Z.max 1 (Qfloor (maxDim / inject_Z size)%Q)
  ∧ 1 ≤ scale
  ∧ ((inject_Z size <= maxDim)%Q →
     (inject_Z (scale * size) <= maxDim)%Q
     ∧ (maxDim < inject_Z ((scale + 1) * size))%Q)
  ∧ ((maxDim < inject_Z size)%Q → scale = 1)
  ∧ newScale 500 500 64 = 6.
Proof.
  intros Hsize maxDim scale. subst scale. unfold newScale. fold maxDim.
  destruct (Qfloor_div_bounds maxDim size Hsize) as [Hlo Hhi].
  split_and!; [done|lia| | |done].
  - intros Hge.
    assert (1 ≤ Qfloor (maxDim / inject_Z size)%Q) as H1.
    { apply Z.lt_succ_r, Z.lt_nge. intros Hle.
      apply (Qlt_irrefl maxDim). eapply Qlt_le_trans; [exact Hhi|].
      eapply Qle_trans; [|exact Hge]. rewrite <-Zle_Qle. nia. }
    by rewrite Z.max_r by done.
  - intros Hlt. pose proof (Qfloor_div_lt_1 maxDim size Hsize Hlt). lia.
Qed.

Lemma newScale_formula_witness :
  0 < PixelSize.value PixelSize.S
  ∧ newScale 500 500 (PixelSize.value PixelSize.S) = 6.
Proof.
  split; [reflexivity|].
  destruct (newScale_formula 500 500 (PixelSize.value PixelSize.S)) as (H & _);
    [reflexivity|].
  rewrite H. reflexivity.
Defined.

(** For whole-pixel container dimensions the scale is computed in integer
    arithmetic. *)
Lemma newScale_integral (w h size : Z) :
  0 < size →
  newScale (inject_Z w) (inject_Z h) size = Z.max 1 ((Z.min w h - 64) / size).
Proof.
  intros Hsize. unfold newScale. f_equal.
  assert (Qmin (inject_Z w) (inject_Z h) - 64 == inject_Z (Z.min w h - 64))%Q
    as ->.
  { unfold Z.sub. rewrite inject_Z_plus, inject_Z_opp.
    apply Qplus_comp; [|reflexivity].
    destruct (Z.le_gt_cases w h) as [Hle|Hgt].
    - rewrite Z.min_l by done. apply Q.min_l. by rewrite <-Zle_Qle.
    - rewrite Z.min_r by lia. apply Q.min_r. rewrite <-Zle_Qle. lia. }
  set (m := Z.min w h - 64).
  assert (inject_Z m / inject_Z size == m # Z.to_pos size)%Q as ->.
  { rewrite (Qmake_Qdiv m (Z.to_pos size)). by rewrite Z2Pos.id. }
  unfold Qfloor. by rewrite Z2Pos.id.
Qed.

(** ** The default-tool effect *)

Section tool_defaults.
Implicit Types (g : list jsval) (st : ToolState).

(** [find] returns the first element that passes the test. *)
Lemma js_find_first (p : jsval → bool) g (i : nat) v :
  g !! i = Some v → p v = true →
  (∀ j w, (j < i)%nat → g !! j = Some w → p w = false) →
  js_find p g = v.
Proof.
  revert i. induction g as [|c g IH]; intros i Hi Hv Hbefore; [done|].
  destruct i as [|i]; simplify_eq/=.
  - by rewrite Hv.
  - rewrite (Hbefore 0%nat c) by (done || lia).
    apply (IH i); [done..|]. intros j w Hj Hw.
    apply (Hbefore (S j) w); [lia|done].
Qed.

Lemma js_find_none (p : jsval → bool) g :
  (∀ j w, g !! j = Some w → p w = false) → js_find p g = undefined.
Proof.
  induction g as [|c g IH]; intros Hall; [done|]. simpl.
  rewrite (Hall 0%nat c) by done. apply IH. intros j w Hw.
  by apply (Hall (S j) w).
Qed.
End tool_defaults.

(** C8 fails as stated: after a first grid has arrived the user moves the
    brush slider to 3; the next grid that arrives finds pencil and colour
    reset, and the brush size still at 3. *)
Lemma defaultToolEffect_keeps_brush :
  brushSize
    (defaultToolEffect (Some [str transparent; str "#ff0000"])
       (setBrushSize 3
          (defaultToolEffect (Some [str "#00ff00"]) initialToolState)))
  ≠ 1.
Proof. vm_compute. discriminate. Qed.

(** C8, amended. Whenever a new grid arrives, the active tool becomes the
    pencil and the draw colour becomes the first non-transparent colour found
    in the grid (a non-empty string), or stays as it is when every cell is
    transparent; the brush size is left as it is, and is 1 when the grid
    arrives in the initial tool state. *)
Theorem defaultToolEffect_defaults (g : list jsval) (st : ToolState) :
  activeTool (defaultToolEffect (Some g) st) = pencil
  ∧ brushSize (defaultToolEffect (Some g) st) = brushSize st
  ∧ (∀ (i : nat) (c : string),
       g !! i = Some (str c) → c ≠ transparent → c ≠ "" →
       (∀ j : nat, (j < i)%nat → g !! j = Some (str transparent)) →
       drawColor (defaultToolEffect (Some g) st) = c)
  ∧ ((∀ i v, g !! i = Some v → v = str transparent) →
     drawColor (defaultToolEffect (Some g) st) = drawColor st)
  ∧ brushSize (defaultToolEffect (Some g) initialToolState) = 1.
Proof.
  assert (∀ st', activeTool (defaultToolEffect (Some g) st') = pencil
                 ∧ brushSize (defaultToolEffect (Some g) st') = brushSize st')
    as Hfixed.
  { intros st'. unfold defaultToolEffect.
    destruct (js_find _ g) as [|c]; [done|]. by destruct (truthy (str c)). }
  split_and!; [apply Hfixed|apply Hfixed| | |by rewrite (proj2 (Hfixed _))].
  - intros i c Hi Hc Hne Hbefore. unfold defaultToolEffect.
    rewrite (js_find_first _ g i (str c)); first last.
    + intros j w Hj Hw. rewrite (Hbefore j Hj) in Hw. simplify_eq.
      by rewrite bool_decide_eq_false; intros [].
    + apply bool_decide_eq_true. congruence.
    + done.
    + simpl. by rewrite bool_decide_false.
  - intros Hall. unfold defaultToolEffect. rewrite js_find_none; [done|].
    intros j w Hw. rewrite (Hall j w Hw).
    by rewrite bool_decide_eq_false; intros [].
Qed.

Lemma defaultToolEffect_defaults_witness :
  defaultToolEffect (Some [str transparent; str "#ff0000"; str "#0000ff"])
    initialToolState
  = MkToolState pencil 1 "#ff0000".
Proof.
  destruct (defaultToolEffect_defaults
              [str transparent; str "#ff0000"; str "#0000ff"] initialToolState)
    as (Htool & Hbrush & Hcolor & _).
  specialize (Hcolor 1%nat "#ff0000" eq_refl).
  destruct (defaultToolEffect _ _) as [t b c]. simpl in *.
  rewrite Htool, Hbrush, Hcolor; [reflexivity|discriminate|discriminate|].
  intros [|j] Hj; [reflexivity|lia].
Defined.

(** ** The raster editor *)

Section arrays.
Implicit Types (a c : list jsval) (v : jsval) (i : nat) (j : Z).

Lemma js_get_nat a i : js_get a (Z.of_nat i) = default undefined (a !! i).
Proof. unfold js_get. rewrite decide_False by lia. by rewrite Nat2Z.id. Qed.

Lemma js_get_lookup a i v : a !! i = Some v → js_get a (Z.of_nat i) = v.
Proof. intros H. by rewrite js_get_nat, H. Qed.

(** Reading after an assignment, in range or past the end. *)
Lemma js_get_set a i v j :
  js_get (js_set i v a) j = if decide (j = Z.of_nat i) then v else js_get a j.
Proof.
  unfold js_get at 1. destruct (decide (j < 0)) as [Hneg|Hnn].
  { rewrite decide_False by lia. unfold js_get. by rewrite decide_True. }
  rewrite <-(Z2Nat.id j) by lia. rewrite js_get_nat, Nat2Z.id.
  generalize (Z.to_nat j) as k. clear j Hnn. intros k. unfold js_set.
  destruct (decide (Z.of_nat k = Z.of_nat i)) as [Heq|Hne].
  - assert (k = i) as -> by lia. case_decide as Hlen.
    + by rewrite list_lookup_insert_eq.
    + rewrite lookup_app_r by lia.
      rewrite lookup_app_r by (rewrite length_replicate; lia).
      by rewrite length_replicate, Nat.sub_diag.
  - assert (k ≠ i) by lia. case_decide as Hlen.
    + by rewrite list_lookup_insert_ne.
    + destruct (decide (k < length a)%nat) as [Hk|Hk].
      { by rewrite lookup_app_l. }
      rewrite (lookup_ge_None_2 a k) by lia. rewrite lookup_app_r by lia.
      destruct (decide (k < i)%nat).
      * rewrite lookup_app_l by (rewrite length_replicate; lia).
        by rewrite lookup_replicate_2 by lia.
      * rewrite lookup_app_r by (rewrite length_replicate; lia).
        rewrite length_replicate. rewrite lookup_ge_None_2; [done|simpl; lia].
Qed.

Lemma js_set_length a i v :
  (i < length a)%nat → length (js_set i v a) = length a.
Proof.
  intros Hi. unfold js_set. rewrite decide_True by done. apply length_insert.
Qed.
End arrays.

Section store.
Implicit Types (σ : gmap nat (list jsval)) (l : nat) (c : list jsval).

Lemma contents_insert l c σ : contents l (<[l:=c]> σ) = c.
Proof. unfold contents. by rewrite lookup_insert_eq. Qed.

Lemma contents_lookup l c σ : σ !! l = Some c → contents l σ = c.
Proof. unfold contents. by intros ->. Qed.

Lemma fresh_not_in_store σ : σ !! fresh (dom σ) = None.
Proof. apply not_elem_of_dom, is_fresh. Qed.

(** Allocation leaves every array of the store as it is. *)
Lemma lookup_insert_fresh σ l c c' :
  σ !! l = Some c → <[fresh (dom σ) := c']> σ !! l = Some c.
Proof.
  intros Hl. rewrite lookup_insert_ne; [done|]. intros Heq.
  by rewrite <-Heq, fresh_not_in_store in Hl.
Qed.

(** A loop whose body only touches the array behind [l] is a fold over the
    contents of that array. *)
Lemma forLoop_local {A S} l (body : A → S → M S)
    (step : list jsval * S → A → list jsval * S) (xs : list A) :
  (∀ x s c σ,
     body x s (<[l:=c]> σ) = ((step (c, s) x).2, <[l:=(step (c, s) x).1]> σ)) →
  ∀ s c σ,
    forLoop xs body s (<[l:=c]> σ)
    = ((foldl step (c, s) xs).2, <[l:=(foldl step (c, s) xs).1]> σ).
Proof.
  intros Hbody. induction xs as [|x xs IH]; intros s c σ; [done|].
  simpl. unfold bind. rewrite Hbody, IH. by destruct (step (c, s) x).
Qed.

Lemma eraseMatching_local l targetColor i u c σ :
  eraseMatching l targetColor i u (<[l:=c]> σ)
  = ((eraseStep targetColor (c, u) i).2,
     <[l:=(eraseStep targetColor (c, u) i).1]> σ).
Proof.
  unfold eraseMatching, eraseStep, bind, getIdx, setIdx, ret. simpl.
  rewrite contents_insert. case_decide; [|by destruct u].
  by rewrite contents_insert, insert_insert_eq.
Qed.

Lemma paintCell_local l size newColor py px hc c σ :
  paintCell l size newColor py px hc (<[l:=c]> σ)
  = ((paintStep size newColor py (c, hc) px).2,
     <[l:=(paintStep size newColor py (c, hc) px).1]> σ).
Proof.
  unfold paintCell, paintStep, bind, getIdx, setIdx, ret. simpl.
  case_decide; [|done]. rewrite contents_insert. case_decide; [|done].
  simpl. by rewrite contents_insert, insert_insert_eq.
Qed.

Lemma paintRows_local l size newColor ys xs hc c σ :
  forLoop ys (λ py, forLoop xs (paintCell l size newColor py)) hc (<[l:=c]> σ)
  = ((paintRows size newColor ys xs (c, hc)).2,
     <[l:=(paintRows size newColor ys xs (c, hc)).1]> σ).
Proof.
  unfold paintRows.
  apply (forLoop_local l _ (paintRow size newColor xs)).
  intros py s c' σ'. unfold paintRow.
  apply (forLoop_local l _ (paintStep size newColor py)).
  intros px s' c'' σ''. apply paintCell_local.
Qed.
End store.

Section loops.
Implicit Types (a c : list jsval) (hc : bool) (xs ys : list Z).

(** The magic eraser's loop rewrites the array from left to right. *)
Lemma eraseStep_scan targetColor (post pre : list jsval) :
  foldl (eraseStep targetColor) (eraseColor targetColor pre ++ post, tt)
    (seqZ (Z.of_nat (length pre)) (Z.of_nat (length post)))
  = (eraseColor targetColor (pre ++ post), tt).
Proof.
  revert pre. induction post as [|v post IH]; intros pre.
  - by rewrite !(right_id_L [] (++)).
  - rewrite seqZ_cons by (simpl; lia). simpl foldl.
    replace (Z.pred (Z.of_nat (S (length post))))
      with (Z.of_nat (length post)) by lia.
    replace (Z.succ (Z.of_nat (length pre)))
      with (Z.of_nat (length (pre ++ [v]))) by (rewrite length_app; simpl; lia).
    replace (pre ++ v :: post) with ((pre ++ [v]) ++ post)
      by (by rewrite <-(assoc_L (++))).
    rewrite <-IH. f_equal. unfold eraseStep. simpl. f_equal.
    assert (length (eraseColor targetColor pre) = length pre) as Hlen
      by apply length_fmap.
    rewrite (js_get_lookup _ _ v)
      by (rewrite lookup_app_r, Hlen, Nat.sub_diag by lia; done).
    unfold eraseColor at 3. rewrite fmap_app, <-(assoc_L (++)). simpl.
    fold (eraseColor targetColor pre). rewrite Nat2Z.id.
    case_decide; [|done]. unfold js_set.
    rewrite decide_True by (rewrite length_app, Hlen; simpl; lia).
    rewrite <-Hlen.
    by rewrite (insert_app_r_alt _ _ _ _ (reflexivity _)), Nat.sub_diag.
Qed.

Lemma eraseStep_all targetColor c :
  foldl (eraseStep targetColor) (c, tt) (seqZ 0 (Z.of_nat (length c)))
  = (eraseColor targetColor c, tt).
Proof. apply (eraseStep_scan targetColor c []). Qed.

Lemma eraseColor_lookup targetColor c (i : nat) :
  eraseColor targetColor c !! i
  = (λ v, if decide (v = targetColor) then str transparent else v) <$> c !! i.
Proof. apply list_lookup_fmap. Qed.

Context (size : Z) (newColor : string).

(** One brush step writes [newColor] or nothing. *)
Lemma paintStep_get py px c hc j :
  js_get (paintStep size newColor py (c, hc) px).1 j
  = if decide (inBounds size px py ∧ j = py * size + px) then str newColor
    else js_get c j.
Proof.
  unfold paintStep, inBounds. simpl.
  destruct (decide (px >= 0 ∧ px < size ∧ py >= 0 ∧ py < size)) as [Hin|Hout].
  - destruct (decide (js_get c (py * size + px) ≠ str newColor)) as [Hne|Heq];
      simpl.
    + rewrite js_get_set, Z2Nat.id by nia.
      destruct (decide (j = py * size + px)).
      * by rewrite decide_True.
      * by rewrite decide_False by tauto.
    + apply dec_stable in Heq. case_decide as Hj; [|done].
      destruct Hj as [_ ->]. done.
  - by rewrite decide_False by tauto.
Qed.

(** The flag [hasChanged] is raised exactly when the array is written. *)
Lemma paintStep_changed py px c hc :
  (paintStep size newColor py (c, hc) px).2 = true
  ∨ paintStep size newColor py (c, hc) px = (c, hc).
Proof. unfold paintStep. repeat case_decide; auto. Qed.

Lemma paintStep_length py px c hc :
  size * size ≤ Z.of_nat (length c) →
  length (paintStep size newColor py (c, hc) px).1 = length c.
Proof.
  intros Hlen. unfold paintStep. repeat case_decide; simpl; try done.
  apply js_set_length. nia.
Qed.

Lemma painted_init c0 hc0 :
  painted size newColor (λ _ _, False) c0 hc0 (c0, hc0).
Proof. split_and!; simpl; tauto. Qed.

Lemma painted_step visited c0 hc0 acc py px :
  painted size newColor visited c0 hc0 acc →
  painted size newColor (λ qx qy, visited qx qy ∨ (qx = px ∧ qy = py)) c0 hc0
    (paintStep size newColor py acc px).
Proof.
  destruct acc as [c hc]. intros (Hcol & Hrest & Hlen & Hflag). split_and!.
  - intros qx qy Hv Hin. rewrite paintStep_get.
    destruct Hv as [Hv|[-> ->]].
    + case_decide; [done|]. by apply Hcol.
    + by rewrite decide_True.
  - intros j Hj. rewrite paintStep_get. case_decide as Hdec.
    + destruct Hdec as [Hin ->]. by destruct (Hj px py); auto.
    + apply Hrest. intros qx qy Hv. apply Hj. auto.
  - intros Hsz. specialize (Hlen Hsz). simpl in Hlen.
    rewrite paintStep_length; [done|lia].
  - destruct (paintStep_changed py px c hc) as [?|Heq]; [by left|].
    rewrite Heq. done.
Qed.

Lemma painted_ext (v1 v2 : Z → Z → Prop) c0 hc0 acc :
  (∀ px py, v1 px py ↔ v2 px py) →
  painted size newColor v1 c0 hc0 acc → painted size newColor v2 c0 hc0 acc.
Proof.
  intros Hv (Hcol & Hrest & Hlen & Hflag). split_and!; [|
    |done..].
  - intros px py H. apply Hcol. by apply Hv.
  - intros j Hj. apply Hrest. intros px py H. apply Hj. by apply Hv.
Qed.

Lemma paintRow_painted xs visited c0 hc0 acc py :
  painted size newColor visited c0 hc0 acc →
  painted size newColor (λ qx qy, visited qx qy ∨ (qx ∈ xs ∧ qy = py)) c0 hc0
    (paintRow size newColor xs acc py).
Proof.
  unfold paintRow. revert visited acc.
  induction xs as [|px xs IH]; intros visited acc Hacc; simpl.
  - eapply painted_ext; [|exact Hacc]. intros qx qy. rewrite elem_of_nil. tauto.
  - eapply painted_ext; [|apply IH, painted_step, Hacc].
    intros qx qy. simpl. rewrite elem_of_cons. tauto.
Qed.

Lemma paintRows_painted ys xs visited c0 hc0 acc :
  painted size newColor visited c0 hc0 acc →
  painted size newColor (λ qx qy, visited qx qy ∨ (qx ∈ xs ∧ qy ∈ ys)) c0 hc0
    (paintRows size newColor ys xs acc).
Proof.
  unfold paintRows. revert visited acc.
  induction ys as [|py ys IH]; intros visited acc Hacc; simpl.
  - eapply painted_ext; [|exact Hacc]. intros qx qy. rewrite elem_of_nil. tauto.
  - eapply painted_ext; [|apply IH, paintRow_painted, Hacc].
    intros qx qy. simpl. rewrite elem_of_cons. tauto.
Qed.

(** A brush that finds its colour in every cell it visits writes
    nothing. *)
Lemma paintRows_idle ys xs c hc :
  (∀ px py, px ∈ xs → py ∈ ys → inBounds size px py →
     js_get c (py * size + px) = str newColor) →
  paintRows size newColor ys xs (c, hc) = (c, hc).
Proof.
  unfold paintRows. induction ys as [|py ys IH]; intros Hall; [done|].
  simpl. assert (paintRow size newColor xs (c, hc) py = (c, hc)) as ->.
  { unfold paintRow.
    assert (∀ px, px ∈ xs → inBounds size px py →
              js_get c (py * size + px) = str newColor) as Hrow.
    { intros px Hpx. apply Hall; [done|]. apply elem_of_cons. by left. }
    clear Hall IH. induction xs as [|px xs IHx]; [done|]. simpl.
    assert (paintStep size newColor py (c, hc) px = (c, hc)) as ->.
    { unfold paintStep. case_decide as Hin; [|done]. simpl.
      rewrite decide_False; [done|]. intros Hne. apply Hne, Hrow; [|done].
      apply elem_of_cons. by left. }
    apply IHx. intros qx Hqx. apply Hrow, elem_of_cons. by right. }
  apply IH. intros px qy Hpx Hqy. apply Hall; [done|].
  apply elem_of_cons. by right.
Qed.
End loops.

Section applyTool_runs.
Implicit Types (σ : gmap nat (list jsval)) (grid : nat) (ts : ToolState).

Lemma contents_spread grid σ :
  contents grid (<[fresh (dom σ) := contents grid σ]> σ) = contents grid σ.
Proof.
  unfold contents at 1. destruct (decide (fresh (dom σ) = grid)) as [->|Hne].
  - by rewrite lookup_insert_eq.
  - by rewrite lookup_insert_ne.
Qed.

(** A call outside the canvas returns before anything is copied. *)
Lemma applyTool_run_outside grid size ts x y σ :
  ¬ inBounds size x y → applyTool (Some grid) size ts x y σ = (None, σ).
Proof.
  intros Hout. unfold applyTool. rewrite decide_True; [done|].
  unfold inBounds in Hout. lia.
Qed.

(** The brush tools: the copy is painted and handed over if it was
    written. *)
Lemma applyTool_run_brush grid size ts x y σ :
  inBounds size x y → activeTool ts ≠ magic_eraser →
  applyTool (Some grid) size ts x y σ
  = let acc :=
      paintRows size (brushColor ts)
        (seqZ (y - brushSize ts / 2) (brushSize ts))
        (seqZ (x - brushSize ts / 2) (brushSize ts))
        (contents grid σ, false) in
    (if acc.2 then Some (fresh (dom σ)) else None,
     <[fresh (dom σ) := acc.1]> σ).
Proof.
  intros Hin Htool. unfold applyTool, inBounds in *.
  rewrite decide_False by lia. unfold bind at 1, spread.
  unfold bind at 1.
  rewrite (decide_False (P := activeTool ts = magic_eraser)) by done.
  replace (y - brushSize ts / 2 + brushSize ts - (y - brushSize ts / 2))
    with (brushSize ts) by lia.
  replace (x - brushSize ts / 2 + brushSize ts - (x - brushSize ts / 2))
    with (brushSize ts) by lia.
  rewrite paintRows_local. fold (brushColor ts). simpl.
  by destruct (paintRows _ _ _ _ _) as [c' []].
Qed.

(** The magic eraser: the copy is rewritten and handed over unless the
    target cell is transparent. *)
Lemma applyTool_run_magic grid size ts x y σ :
  inBounds size x y → activeTool ts = magic_eraser →
  applyTool (Some grid) size ts x y σ
  = let targetColor := js_get (contents grid σ) (y * size + x) in
    if decide (targetColor ≠ str transparent)
    then (Some (fresh (dom σ)),
          <[fresh (dom σ) := eraseColor targetColor (contents grid σ)]> σ)
    else (None, <[fresh (dom σ) := contents grid σ]> σ).
Proof.
  intros Hin Htool. unfold applyTool, inBounds in *.
  rewrite decide_False by lia. unfold bind at 1, spread.
  unfold bind at 1.
  rewrite (decide_True (P := activeTool ts = magic_eraser)) by done.
  unfold bind at 1, getIdx. rewrite contents_spread. simpl.
  case_decide as Htarget; [|done].
  unfold bind at 1, lengthOf. rewrite contents_insert. unfold bind at 1.
  set (targetColor := js_get (contents grid σ) (y * size + x)).
  rewrite (forLoop_local _ _ (eraseStep targetColor))
    by (intros; apply eraseMatching_local).
  by rewrite eraseStep_all.
Qed.

(** Whatever the tool and the cell, the store only ever gains the fresh
    copy: no array that existed before the call is written. *)
Lemma applyTool_allocates_only grid size ts x y σ :
  (applyTool (Some grid) size ts x y σ).2 = σ
  ∨ ∃ c, (applyTool (Some grid) size ts x y σ).2 = <[fresh (dom σ) := c]> σ.
Proof.
  destruct (decide (inBounds size x y)) as [Hin|Hout].
  - right. destruct (decide (activeTool ts = magic_eraser)) as [Hm|Hm].
    + rewrite applyTool_run_magic by done. simpl. case_decide; eauto.
    + rewrite applyTool_run_brush by done. simpl. eauto.
  - left. by rewrite applyTool_run_outside.
Qed.

Lemma applyTool_frame grid size ts x y σ (l : nat) c :
  σ !! l = Some c → (applyTool (Some grid) size ts x y σ).2 !! l = Some c.
Proof.
  intros Hl. destruct (applyTool_allocates_only grid size ts x y σ)
    as [->|[c' ->]]; [done|].
  by apply lookup_insert_fresh.
Qed.
End applyTool_runs.

(** C3. Magic eraser: for every grid and every in-bounds cell [(x, y)] that
    holds a colour [C] other than [transparent], [applyTool] with the magic
    eraser hands over, in one call of [onGridUpdate], a fresh grid of the
    same length in which every cell that was equal to [C] is [transparent]
    and every other cell is as it was, while the caller's grid is never
    seen half-erased; if the target cell is [transparent] already, nothing
    is handed over and the caller's grid stays as it is. *)
Theorem applyTool_magic_eraser (σ : gmap nat (list jsval)) (grid : nat)
    (content : list jsval) (size x y : Z) (ts : ToolState) :
  σ !! grid = Some content →
  activeTool ts = magic_eraser →
  0 ≤ x < size → 0 ≤ y < size →
  (∀ C : string,
     js_get content (y * size + x) = str C → C ≠ transparent →
     ∃ (newGrid : nat) (after : list jsval),
       applyTool (Some grid) size ts x y σ
       = (Some newGrid, <[newGrid := after]> σ)
       ∧ σ !! newGrid = None
       ∧ <[newGrid := after]> σ !! grid = Some content
       ∧ length after = length content
       ∧ ∀ i : nat,
           (content !! i = Some (str C) → after !! i = Some (str transparent))
           ∧ (content !! i ≠ Some (str C) → after !! i = content !! i))
  ∧ (js_get content (y * size + x) = str transparent →
     (applyTool (Some grid) size ts x y σ).1 = None
     ∧ (applyTool (Some grid) size ts x y σ).2 !! grid = Some content
     ∧ gridAfter grid (applyTool (Some grid) size ts x y σ) = content).
Proof.
  intros Hgrid Htool Hx Hy.
  assert (inBounds size x y) as Hin by (unfold inBounds; lia).
  rewrite (applyTool_run_magic grid size ts x y σ Hin Htool).
  rewrite (contents_lookup _ _ _ Hgrid). simpl. split.
  - intros C HC Hne. rewrite HC. rewrite decide_True by congruence.
    exists (fresh (dom σ)), (eraseColor (str C) content).
    split_and!; [done|apply fresh_not_in_store| |apply length_fmap|].
    + by apply lookup_insert_fresh.
    + intros i. rewrite eraseColor_lookup. split.
      * intros ->. simpl. by rewrite decide_True.
      * intros Hi. destruct (content !! i) as [v|]; [|done]. simpl.
        rewrite decide_False; [done|]. congruence.
  - intros ->. rewrite decide_False by (intros H; by apply H).
    assert (<[fresh (dom σ) := content]> σ !! grid = Some content) as Hkept.
    { by apply lookup_insert_fresh. }
    split_and!; [done|done|]. unfold gridAfter. simpl.
    by apply contents_lookup.
Qed.

Lemma applyTool_magic_eraser_witness :
  ∃ (newGrid : nat) (after : list jsval),
    applyTool (Some 0%nat) 2 (MkToolState magic_eraser 1 "#ffffff") 1 0
      sampleStore
    = (Some newGrid, <[newGrid := after]> sampleStore)
    ∧ after !! 1%nat = Some (str transparent)
    ∧ after !! 0%nat = Some (str "#ff0000").
Proof.
  destruct (applyTool_magic_eraser sampleStore 0%nat sampleGrid 2 1 0
              (MkToolState magic_eraser 1 "#ffffff"))
    as [Herase _].
  - reflexivity.
  - reflexivity.
  - lia.
  - lia.
  - destruct (Herase "#00ff00")
      as (newGrid & after & Hrun & _ & _ & _ & Hcells).
    + reflexivity.
    + discriminate.
    + exists newGrid, after. split; [exact Hrun|]. split.
      * apply (Hcells 1%nat). reflexivity.
      * rewrite (proj2 (Hcells 0%nat)); [reflexivity|]. discriminate.
Defined.

(** C10. Noninterference: the result of [applyTool] with the magic eraser,
    the grid handed over and the store alike, is the same for any two tool
    states that differ only in brush size or draw colour. *)
Theorem magic_eraser_noninterference (σ : gmap nat (list jsval))
    (grid : option nat) (size x y : Z) (ts1 ts2 : ToolState) :
  activeTool ts1 = magic_eraser →
  activeTool ts2 = magic_eraser →
  applyTool grid size ts1 x y σ = applyTool grid size ts2 x y σ.
Proof.
  intros H1 H2. destruct grid as [grid|]; [|done].
  destruct (decide (inBounds size x y)) as [Hin|Hout].
  - by rewrite !applyTool_run_magic.
  - by rewrite !applyTool_run_outside.
Qed.

Lemma magic_eraser_noninterference_witness :
  applyTool (Some 0%nat) 2 (MkToolState magic_eraser 1 "#ffffff") 0 1
    sampleStore
  = applyTool (Some 0%nat) 2 (MkToolState magic_eraser 5 "#123456") 0 1
      sampleStore.
Proof.
  apply (magic_eraser_noninterference _ (Some 0%nat) 2 0 1
           (MkToolState magic_eraser 1 "#ffffff")
           (MkToolState magic_eraser 5 "#123456")); reflexivity.
Defined.

Section brush.
Implicit Types (σ : gmap nat (list jsval)) (grid : nat) (ts : ToolState).

(** The grid the consumers hold after a brush call is the painted copy,
    whether or not it was handed over. *)
Lemma gridAfter_brush grid size ts x y σ content :
  σ !! grid = Some content →
  inBounds size x y → activeTool ts ≠ magic_eraser →
  painted size (brushColor ts) (inFootprint (brushSize ts) x y) content false
    (gridAfter grid (applyTool (Some grid) size ts x y σ), true).
Proof.
  intros Hgrid Hin Htool. rewrite applyTool_run_brush by done.
  rewrite (contents_lookup _ _ _ Hgrid).
  pose proof (paintRows_painted size (brushColor ts)
                (seqZ (y - brushSize ts / 2) (brushSize ts))
                (seqZ (x - brushSize ts / 2) (brushSize ts))
                _ content false _
                (painted_init size (brushColor ts) content false))
    as Hp.
  apply (painted_ext _ _ _ (inFootprint (brushSize ts) x y)) in Hp; first last.
  { intros px py. rewrite !elem_of_seqZ. unfold inFootprint. lia. }
  destruct (paintRows _ _ _ _ _) as [c' hc]. unfold gridAfter. simpl.
  destruct Hp as (Hcol & Hrest & Hlen & Hflag). simpl in *.
  assert ((if hc then contents (fresh (dom σ)) (<[fresh (dom σ) := c']> σ)
           else contents grid (<[fresh (dom σ) := c']> σ)) = c') as Hafter.
  { destruct hc; [apply contents_insert|].
    destruct Hflag as [?|Heq]; [done|]. simplify_eq.
    by apply contents_lookup, lookup_insert_fresh. }
  destruct hc; simpl; rewrite Hafter; split_and!; simpl; auto.
Qed.
End brush.

(** C4. Brush footprint and containment: for every brush size and every
    anchor [(x, y)] inside the canvas, after [applyTool] with the pencil or
    the eraser the cells of the square spanning [x - floor(b/2)] to
    [x - floor(b/2) + b - 1], and likewise in [y], that lie inside the canvas
    hold the tool's colour ([drawColor] for the pencil, [transparent] for
    the eraser), every other cell of the canvas is as before, nothing outside
    the canvas is written, and the caller's array is not touched; a call
    whose anchor lies outside the canvas does nothing at all. *)
Theorem applyTool_brush_footprint (σ : gmap nat (list jsval)) (grid : nat)
    (content : list jsval) (size x y : Z) (ts : ToolState) :
  σ !! grid = Some content →
  activeTool ts = pencil ∨ activeTool ts = eraser →
  1 ≤ brushSize ts →
  let newColor :=
    match activeTool ts with pencil => drawColor ts | _ => transparent end in
  let after := gridAfter grid (applyTool (Some grid) size ts x y σ) in
  (0 ≤ x < size ∧ 0 ≤ y < size →
   (∀ px py, 0 ≤ px < size → 0 ≤ py < size →
      js_get after (py * size + px)
      = if decide (inFootprint (brushSize ts) x y px py) then str newColor
        else js_get content (py * size + px))
   ∧ (∀ j, ¬ 0 ≤ j < size * size → js_get after j = js_get content j)
   ∧ (Z.of_nat (length content) = size * size →
      length after = length content)
   ∧ (applyTool (Some grid) size ts x y σ).2 !! grid = Some content)
  ∧ (¬ (0 ≤ x < size ∧ 0 ≤ y < size) →
     applyTool (Some grid) size ts x y σ = (None, σ)).
Proof.
  intros Hgrid Htool Hbrush newColor after. split.
  - intros Hxy. assert (inBounds size x y) as Hin by (unfold inBounds; lia).
    assert (activeTool ts ≠ magic_eraser) as Hm by (destruct Htool; congruence).
    assert (brushColor ts = newColor) as Hcolor.
    { unfold brushColor, newColor. by destruct Htool as [-> | ->]. }
    destruct (gridAfter_brush grid size ts x y σ content Hgrid Hin Hm)
      as (Hcol & Hrest & Hlen & _).
    fold after in Hcol, Hrest, Hlen. rewrite Hcolor in Hcol. simpl in *.
    split_and!.
    + intros px py Hpx Hpy. case_decide as Hfoot.
      * apply Hcol; [done|]. unfold inBounds. lia.
      * apply Hrest. intros qx qy Hq Hqin Heq. apply Hfoot.
        unfold inBounds in Hqin.
        assert (qy = py) as -> by nia. assert (qx = px) as -> by lia. done.
    + intros j Hj. apply Hrest. intros qx qy _ Hqin ->. apply Hj.
      unfold inBounds in Hqin. nia.
    + intros Hsz. apply Hlen. lia.
    + by apply applyTool_frame.
  - intros Hout. apply applyTool_run_outside. unfold inBounds. lia.
Qed.

Lemma applyTool_brush_footprint_witness :
  js_get
    (gridAfter 0%nat
       (applyTool (Some 0%nat) 2 (MkToolState pencil 2 "#0000ff") 1 1
          sampleStore))
    (0 * 2 + 1)
  = str "#0000ff"
  ∧ applyTool (Some 0%nat) 2 (MkToolState eraser 1 "#0000ff") 2 0
      {[ 0%nat := [str "#ff0000"] ]}
    = (None, {[ 0%nat := [str "#ff0000"] ]}).
Proof.
  split.
  - destruct (applyTool_brush_footprint sampleStore 0%nat sampleGrid 2 1 1
                (MkToolState pencil 2 "#0000ff"))
      as [Hin _].
    + reflexivity.
    + left. reflexivity.
    + simpl. lia.
    + destruct Hin as (Hcells & _); [lia|].
      rewrite (Hcells 1 0) by lia. reflexivity.
  - destruct (applyTool_brush_footprint
                {[ 0%nat := [str "#ff0000"] ]} 0%nat [str "#ff0000"]
                2 2 0 (MkToolState eraser 1 "#0000ff"))
      as [_ Hout].
    + reflexivity.
    + right. reflexivity.
    + simpl. lia.
    + apply Hout. lia.
Defined.

(** C5. No-op detection: a pencil application whose whole in-bounds footprint
    already holds [drawColor] does not call [onGridUpdate], and the grid the
    consumers hold is the old one, value for value; and in every case,
    whatever the tool and the cell, no array that existed before the call is
    written, the caller's grid included. *)
Theorem applyTool_pencil_noop (σ : gmap nat (list jsval)) (grid : nat)
    (content : list jsval) (size x y : Z) (ts : ToolState) :
  σ !! grid = Some content →
  activeTool ts = pencil →
  (∀ px py,
     inFootprint (brushSize ts) x y px py → 0 ≤ px < size → 0 ≤ py < size →
     js_get content (py * size + px) = str (drawColor ts)) →
  (applyTool (Some grid) size ts x y σ).1 = None
  ∧ gridAfter grid (applyTool (Some grid) size ts x y σ) = content
  ∧ ∀ (ts' : ToolState) (x' y' : Z) (l : nat) (c : list jsval),
      σ !! l = Some c →
      (applyTool (Some grid) size ts' x' y' σ).2 !! l = Some c.
Proof.
  intros Hgrid Htool Hheld.
  assert ((applyTool (Some grid) size ts x y σ).1 = None
          ∧ gridAfter grid (applyTool (Some grid) size ts x y σ) = content)
    as [Hnone Hsame]; [|split_and!; [done|done|]].
  - unfold gridAfter. destruct (decide (inBounds size x y)) as [Hin|Hout].
    + rewrite applyTool_run_brush by (done || congruence).
      rewrite (contents_lookup _ _ _ Hgrid), paintRows_idle.
      * simpl. split; [done|]. by apply contents_lookup, lookup_insert_fresh.
      * intros px py Hpx Hpy Hb. unfold brushColor.
        rewrite decide_True by done. apply elem_of_seqZ in Hpx, Hpy.
        unfold inBounds in Hb. apply Hheld; [|lia..].
        unfold inFootprint. lia.
    + rewrite applyTool_run_outside by done. simpl.
      split; [done|]. by apply contents_lookup.
  - intros ts' x' y' l c. apply applyTool_frame.
Qed.

Lemma applyTool_pencil_noop_witness :
  (applyTool (Some 0%nat) 2 (MkToolState pencil 1 "#00ff00") 1 0 sampleStore).1
  = None.
Proof.
  apply (applyTool_pencil_noop sampleStore 0%nat sampleGrid 2 1 0
           (MkToolState pencil 1 "#00ff00")).
  - reflexivity.
  - reflexivity.
  - unfold inFootprint. simpl. intros px py Hf Hpx Hpy.
    assert (px = 1) as -> by lia. assert (py = 0) as -> by lia. reflexivity.
Defined.

(** ** More on the export: palette and runs *)

Section palette.
Implicit Types (grid acc : list string) (c d : string).

Lemma set_add_NoDup acc c : NoDup acc → NoDup (set_add acc c).
Proof.
  intros Hnd. unfold set_add. case_decide as Hc; [done|].
  apply NoDup_app. split_and!; [done| |apply NoDup_singleton].
  intros x Hx Hx'. apply list_elem_of_singleton in Hx'. by subst.
Qed.

Lemma foldl_set_add_NoDup acc (l : list string) :
  NoDup acc → NoDup (foldl set_add acc l).
Proof.
  revert acc. induction l as [|d l IH]; intros acc Hnd; [done|].
  simpl. by apply IH, set_add_NoDup.
Qed.

Lemma occursBefore_app_l l1 l2 c d :
  occursBefore l1 c d → occursBefore (l1 ++ l2) c d.
Proof.
  intros (k & Hk & Hm). exists k. split; [by apply lookup_app_l_Some|].
  intros m Hle. rewrite lookup_app_l; [by apply Hm|].
  apply lookup_lt_Some in Hk. lia.
Qed.

(** The order of a [Set] built from a list is the order of first
    occurrence in the list. *)
Lemma array_from_set_order (xs : list string) (i j : nat) c d :
  array_from_set xs !! i = Some c → array_from_set xs !! j = Some d →
  (i < j)%nat → occursBefore xs c d.
Proof.
  unfold array_from_set. revert i j c d.
  induction xs as [|x xs IH] using rev_ind; intros i j c d Hi Hj Hlt.
  { done. }
  rewrite foldl_app in Hi, Hj. simpl in Hi, Hj.
  pose proof (elem_of_foldl_set_add c [] xs) as Hmem.
  set (acc := foldl set_add [] xs) in *. unfold set_add in Hi, Hj.
  destruct (decide (x ∈ acc)) as [Hx|Hx].
  - apply occursBefore_app_l. by apply (IH i j).
  - destruct (decide (j < length acc)%nat) as [Hjl|Hjl].
    + rewrite lookup_app_l in Hi, Hj by lia.
      apply occursBefore_app_l. by apply (IH i j).
    + pose proof (lookup_lt_Some _ _ _ Hj) as Hjlt.
      rewrite length_app in Hjlt. simpl in Hjlt.
      rewrite lookup_app_l in Hi by lia.
      rewrite lookup_app_r in Hj by lia.
      apply list_lookup_singleton_Some in Hj as [_ <-].
      assert (c ∈ xs) as Hc.
      { apply list_elem_of_lookup_2, Hmem in Hi as [Hi|Hi]; [|done].
        by apply elem_of_nil in Hi. }
      apply list_elem_of_lookup_1 in Hc as [k Hk]. exists k.
      split; [by apply lookup_app_l_Some|]. intros m Hm Hmx.
      apply Hx, elem_of_foldl_set_add. right.
      apply lookup_lt_Some in Hk. rewrite lookup_app_l in Hmx by lia.
      by eapply list_elem_of_lookup_2.
Qed.

(** Dropping the transparent cells moves no colour ahead of another. *)
Lemma occursBefore_filter grid c d :
  occursBefore (filter (λ c, c ≠ transparent) grid) c d →
  d ≠ transparent → occursBefore grid c d.
Proof.
  intros (k & Hk & Hm) Hd. revert k Hk Hm.
  induction grid as [|x grid IH]; intros k Hk Hm; [done|].
  rewrite filter_cons in Hk, Hm. case_decide as Hx.
  - destruct k as [|k].
    + exists 0%nat. split; [done|]. intros m Hle.
      assert (m = 0)%nat as -> by lia. apply (Hm 0%nat). lia.
    + destruct (IH k) as (k' & Hk' & Hm'); [done| |].
      { intros m Hle. apply (Hm (S m)). lia. }
      exists (S k'). split; [done|]. intros [|m] Hle.
      * apply (Hm 0%nat). lia.
      * apply Hm'. lia.
  - destruct (IH k Hk Hm) as (k' & Hk' & Hm').
    exists (S k'). split; [done|]. intros [|m] Hle.
    + simpl. congruence.
    + apply Hm'. lia.
Qed.
End palette.

(** X1. The palette of an export lists every non-transparent colour of the
    grid exactly once, and nothing else. *)
Theorem extractPalette_exact (grid : list string) (size : Z) :
  NoDup (palette (generateCodeSnippet grid size))
  ∧ ∀ c, c ∈ palette (generateCodeSnippet grid size)
         ↔ c ∈ grid ∧ c ≠ transparent.
Proof.
  split.
  - apply foldl_set_add_NoDup, NoDup_nil_2.
  - intros c. apply elem_of_extractPalette.
Qed.

(** X2. The palette is in order of first occurrence: a colour that stands
    before another in the palette occurs in the grid before the other one
    does. *)
Theorem extractPalette_first_occurrence (grid : list string) (size : Z)
    (i j : nat) (c d : string) :
  palette (generateCodeSnippet grid size) !! i = Some c →
  palette (generateCodeSnippet grid size) !! j = Some d →
  (i < j)%nat →
  occursBefore grid c d.
Proof.
  simpl. unfold extractPalette. intros Hi Hj Hlt.
  apply occursBefore_filter.
  - by apply (array_from_set_order _ i j).
  - apply list_elem_of_lookup_2 in Hj.
    by apply (elem_of_extractPalette d grid) in Hj as [_ ?].
Qed.

Lemma extractPalette_first_occurrence_witness :
  occursBefore ["#0000ff"; transparent; "#ff0000"; "#0000ff"]
    "#0000ff" "#ff0000".
Proof.
  apply (extractPalette_first_occurrence
           ["#0000ff"; transparent; "#ff0000"; "#0000ff"] 2 0 1);
    [reflexivity|reflexivity|lia].
Defined.

Section runs.
Implicit Types (runs : list (Z * Z)) (d xs : list Z) (st : rleState).

Lemma flattenRuns_snoc runs v c :
  flattenRuns (runs ++ [(v, c)]) = flattenRuns runs ++ [v; c].
Proof. unfold flattenRuns. by rewrite bind_app. Qed.

(** Reading the pairs off a flattened list gives the list back. *)
Lemma runsOf_flattenRuns runs : runsOf (flattenRuns runs) = runs.
Proof.
  induction runs as [|[v c] runs IH]; [done|].
  unfold flattenRuns in *. rewrite bind_cons. simpl. by rewrite IH.
Qed.

Lemma flattenRuns_length runs :
  length (flattenRuns runs) = (2 * length runs)%nat.
Proof.
  induction runs as [|[v c] runs IH]; [done|].
  unfold flattenRuns in *. rewrite bind_cons, length_app, IH. simpl. lia.
Qed.

(** The decoder sees in a flattened list the runs it was built from. *)
Lemma expandRuns_flattenRuns runs :
  expandRuns (flattenRuns runs)
  = Some (runs ≫= λ r, replicate (Z.to_nat r.2) r.1).
Proof.
  induction runs as [|[v c] runs IH]; [done|].
  unfold flattenRuns in *. rewrite !bind_cons. simpl. by rewrite IH.
Qed.

Lemma neighboursDiffer_snoc (vs : list Z) v :
  neighboursDiffer vs → last vs ≠ Some v → neighboursDiffer (vs ++ [v]).
Proof.
  intros Hvs Hlast i a b Ha Hb.
  destruct (decide (S i < length vs)%nat) as [Hlt|Hge].
  - rewrite lookup_app_l in Ha, Hb by lia. by apply (Hvs i).
  - pose proof (lookup_lt_Some _ _ _ Hb) as Hlen.
    rewrite length_app in Hlen. simpl in Hlen.
    assert (S i = length vs) as Hi by lia.
    rewrite lookup_app_l in Ha by lia.
    rewrite lookup_app_r, Hi, Nat.sub_diag in Hb by lia. simplify_eq/=.
    intros ->. apply Hlast. rewrite last_lookup, <-Hi. done.
Qed.

(** Loop invariant of the run-length loop, on the pairs: the runs pushed so
    far have positive counts, no two neighbours share a value, and the last
    of them differs from the run being counted. *)
Lemma rle_loop_runs rest st runs :
  rleData st = flattenRuns runs →
  Forall (λ r, 1 ≤ r.2) runs →
  neighboursDiffer runs.*1 →
  last runs.*1 ≠ Some (currentVal st) →
  1 ≤ currentCount st →
  ∃ runs2,
    rleData (foldl rleStep st rest)
    ++ [currentVal (foldl rleStep st rest);
        currentCount (foldl rleStep st rest)]
    = flattenRuns runs2
    ∧ Forall (λ r, 1 ≤ r.2) runs2
    ∧ neighboursDiffer runs2.*1.
Proof.
  revert st runs.
  induction rest as [|v rest IH]; intros st runs Hdata Hpos Hnb Hlast Hcnt.
  - exists (runs ++ [(currentVal st, currentCount st)]). simpl.
    rewrite flattenRuns_snoc, Hdata. split_and!; [done| |].
    + apply Forall_app. split; [done|]. by apply Forall_singleton.
    + rewrite fmap_app. by apply neighboursDiffer_snoc.
  - simpl. destruct (decide (v = currentVal st)) as [->|Hne].
    + assert (rleStep st (currentVal st)
              = RleState (rleData st) (currentVal st) (currentCount st + 1))
        as -> by (unfold rleStep; by rewrite decide_True).
      apply (IH _ runs); simpl; [done..|lia].
    + assert (rleStep st v
              = RleState (rleData st ++ [currentVal st; currentCount st]) v 1)
        as -> by (unfold rleStep; by rewrite decide_False).
      apply (IH _ (runs ++ [(currentVal st, currentCount st)])); simpl.
      * by rewrite flattenRuns_snoc, Hdata.
      * apply Forall_app. split; [done|]. by apply Forall_singleton.
      * rewrite fmap_app. by apply neighboursDiffer_snoc.
      * rewrite fmap_app. simpl. rewrite last_snoc. congruence.
      * lia.
Qed.

(** The stream of [runLengthEncode] is a list of runs with positive counts
    and distinct neighbours that expands to the input. *)
Lemma runLengthEncode_runs xs :
  ∃ runs,
    runLengthEncode xs = flattenRuns runs
    ∧ Forall (λ r, 1 ≤ r.2) runs
    ∧ neighboursDiffer runs.*1
    ∧ (runs ≫= λ r, replicate (Z.to_nat r.2) r.1) = xs.
Proof.
  assert (∃ runs,
            runLengthEncode xs = flattenRuns runs
            ∧ Forall (λ r, 1 ≤ r.2) runs
            ∧ neighboursDiffer runs.*1) as (runs & Hflat & Hpos & Hnb).
  { destruct xs as [|v0 rest].
    - exists []. split_and!; [done|done|]. by intros i v w Hv.
    - unfold runLengthEncode.
      apply (rle_loop_runs rest (RleState [] v0 1) []); simpl;
        [done|done| |done|lia].
      by intros i v w Hv. }
  exists runs. split_and!; [done..|].
  pose proof (expandRuns_runLengthEncode xs) as Hexp.
  rewrite Hflat, expandRuns_flattenRuns in Hexp. by simplify_eq.
Qed.
End runs.

Section export_runs.
Implicit Types (runs : list (Z * Z)) (grid : list string).

Lemma expansion_length runs :
  Forall (λ r, 1 ≤ r.2) runs →
  Z.of_nat (length (runs ≫= λ r, replicate (Z.to_nat r.2) r.1))
  = foldr Z.add 0 runs.*2.
Proof.
  induction 1 as [|[v c] runs Hc _ IH]; [done|].
  rewrite bind_cons, length_app, length_replicate, Nat2Z.inj_add, IH.
  rewrite fmap_cons. cbn [foldr fst snd] in *. lia.
Qed.

(** The runs of an export: what [data] holds, read as pairs. *)
Lemma generateCodeSnippet_runs grid size :
  ∃ runs,
    data (generateCodeSnippet grid size) = flattenRuns runs
    ∧ runsOf (data (generateCodeSnippet grid size)) = runs
    ∧ Forall (λ r, 1 ≤ r.2) runs
    ∧ neighboursDiffer runs.*1
    ∧ (runs ≫= λ r, replicate (Z.to_nat r.2) r.1)
      = rawIndicesOf (palette (generateCodeSnippet grid size)) grid.
Proof.
  simpl.
  destruct (runLengthEncode_runs (rawIndicesOf (extractPalette grid) grid))
    as (runs & Hflat & Hpos & Hnb & Hexp).
  exists runs. rewrite Hflat, runsOf_flattenRuns. done.
Qed.
End export_runs.

(** X3. The [data] of an export is a whole number of [(value, count)]
    pairs, every count is at least 1, and the counts add up to the number of
    cells of the grid; so [data] is never longer than twice the grid. *)
Theorem generateCodeSnippet_counts (grid : list string) (size : Z) :
  let d := data (generateCodeSnippet grid size) in
  length d = (2 * length (runsOf d))%nat
  ∧ Forall (λ r, 1 ≤ r.2) (runsOf d)
  ∧ foldr Z.add 0 (runsOf d).*2 = Z.of_nat (length grid)
  ∧ (length d ≤ 2 * length grid)%nat.
Proof.
  intros d. subst d.
  destruct (generateCodeSnippet_runs grid size)
    as (runs & Hflat & -> & Hpos & _ & Hexp).
  assert (foldr Z.add 0 runs.*2 = Z.of_nat (length grid)) as Hsum.
  { rewrite <-expansion_length, Hexp by done. unfold rawIndicesOf.
    by rewrite length_fmap. }
  rewrite Hflat, flattenRuns_length. split_and!; [done..|].
  assert (Z.of_nat (length runs) ≤ foldr Z.add 0 runs.*2); [|lia].
  clear -Hpos. induction Hpos as [|[v c] runs Hc _ IH]; [done|].
  rewrite fmap_cons. cbn [length foldr fst snd] in *. lia.
Qed.

(** X4. The runs of an export are maximal: no two neighbouring runs carry
    the same value, so no shorter stream of runs describes the grid. *)
Theorem generateCodeSnippet_runs_maximal (grid : list string) (size : Z) :
  neighboursDiffer (runsOf (data (generateCodeSnippet grid size))).*1.
Proof.
  by destruct (generateCodeSnippet_runs grid size) as (runs & _ & -> & _ & ? & _).
Qed.

(** X5. The runs of an export, laid out end to end, describe the grid cell
    by cell: a transparent cell by [-1], any other cell by the position of
    its colour in the palette. *)
Theorem generateCodeSnippet_values (grid : list string) (size : Z)
    (p : nat) (c : string) :
  grid !! p = Some c →
  let r := generateCodeSnippet grid size in
  ∃ v,
    (runsOf (data r) ≫= λ run, replicate (Z.to_nat run.2) run.1) !! p
    = Some v
    ∧ (c = transparent → v = -1)
    ∧ (c ≠ transparent →
       0 ≤ v < Z.of_nat (length (palette r))
       ∧ palette r !! Z.to_nat v = Some c).
Proof.
  intros Hp r. subst r.
  destruct (generateCodeSnippet_runs grid size)
    as (runs & _ & -> & _ & _ & ->).
  unfold rawIndicesOf. rewrite list_lookup_fmap, Hp. simpl.
  eexists. split; [done|]. case_decide as Hc; [done|].
  split; [done|]. intros _.
  assert (c ∈ extractPalette grid) as Hin.
  { apply elem_of_extractPalette. split; [|done].
    by eapply list_elem_of_lookup_2. }
  destruct (indexOf_from_lookup _ c 0 Hin) as (n & Hn & Hl).
  unfold indexOf. rewrite Hn, Z.add_0_l, Nat2Z.id.
  apply lookup_lt_Some in Hl as Hlt. split; [lia|done].
Qed.

Lemma generateCodeSnippet_values_witness :
  ∃ v,
    (runsOf (data (generateCodeSnippet ["#0000ff"; transparent; "#ff0000"] 2))
       ≫= λ r, replicate (Z.to_nat r.2) r.1) !! 2%nat = Some v
    ∧ palette (generateCodeSnippet ["#0000ff"; transparent; "#ff0000"] 2)
        !! Z.to_nat v = Some "#ff0000".
Proof.
  destruct (generateCodeSnippet_values
              ["#0000ff"; transparent; "#ff0000"] 2 2 "#ff0000")
    as (v & Hv & _ & Hpal); [reflexivity|].
  exists v. split; [exact Hv|]. apply Hpal. discriminate.
Defined.

(** X6. The export loses nothing: two grids with the same export are the
    same grid. *)
Theorem generateCodeSnippet_inj (g1 g2 : list string) (size1 size2 : Z) :
  generateCodeSnippet g1 size1 = generateCodeSnippet g2 size2 → g1 = g2.
Proof.
  intros Heq.
  assert (∀ g size,
            (idxs ← expandRuns (data (generateCodeSnippet g size));
             mapM (paletteLookup (palette (generateCodeSnippet g size))) idxs)
            = Some g) as Hback.
  { intros g size. simpl. rewrite expandRuns_runLengthEncode. simpl.
    apply mapM_paletteLookup_rawIndices. intros c Hc Hne.
    by apply elem_of_extractPalette. }
  pose proof (Hback g1 size1) as H1. rewrite Heq, Hback in H1. congruence.
Qed.

Lemma generateCodeSnippet_inj_witness :
  ["#0000ff"; transparent] = ["#0000ff"; transparent].
Proof.
  apply (generateCodeSnippet_inj
           ["#0000ff"; transparent] ["#0000ff"; transparent] 1 1).
  reflexivity.
Defined.

(** ** More on the quantizer: the colours it prints *)

Section hex.
Implicit Types (k v r g b : Z) (d : Hexadecimal.uint).

Ltac digit_cases k Hk :=
  assert (k = 0 ∨ k = 1 ∨ k = 2 ∨ k = 3 ∨ k = 4 ∨ k = 5 ∨ k = 6 ∨ k = 7
          ∨ k = 8 ∨ k = 9 ∨ k = 10 ∨ k = 11 ∨ k = 12 ∨ k = 13 ∨ k = 14
          ∨ k = 15) as Hcases by lia;
  clear Hk; repeat (destruct Hcases as [->|Hcases]); [..|subst k].

Lemma hexCons_string k d :
  0 ≤ k < 16 →
  NilEmpty.string_of_uint (hexCons k d)
  = String (hexChar k) (NilEmpty.string_of_uint d).
Proof. intros Hk. digit_cases k Hk; reflexivity. Qed.

Lemma hexCons_value k d (acc : positive) :
  0 ≤ k < 16 →
  Pos.of_hex_uint_acc (hexCons k d) acc
  = Pos.of_hex_uint_acc d (Z.to_pos (k + 16 * Z.pos acc)).
Proof. intros Hk. digit_cases k Hk; simpl; f_equal; lia. Qed.

Lemma hexChar_inj k1 k2 :
  0 ≤ k1 < 16 → 0 ≤ k2 < 16 → hexChar k1 = hexChar k2 → k1 = k2.
Proof.
  intros H1 H2. digit_cases k1 H1; digit_cases k2 H2;
    first [reflexivity | discriminate].
Qed.

(** The numeral of [0x1RRGGBB]: a leading 1 and two digits per channel. *)
Lemma toString16_rgb r g b :
  0 ≤ r < 256 → 0 ≤ g < 256 → 0 ≤ b < 256 →
  toString16 (2 ^ 24 + r * 2 ^ 16 + g * 2 ^ 8 + b)
  = "1" +:+ hex2 r +:+ hex2 g +:+ hex2 b.
Proof.
  intros Hr Hg Hb.
  set (D := Hexadecimal.D1
              (hexCons (r / 16) (hexCons (r mod 16)
              (hexCons (g / 16) (hexCons (g mod 16)
              (hexCons (b / 16) (hexCons (b mod 16) Hexadecimal.Nil))))))).
  set (V := 2 ^ 24 + r * 2 ^ 16 + g * 2 ^ 8 + b).
  assert (∀ v, 0 ≤ v < 256 → 0 ≤ v / 16 < 16 ∧ 0 ≤ v mod 16 < 16) as Hdig.
  { intros v Hv. split; [|apply Z.mod_pos_bound; lia].
    split; [apply Z.div_pos; lia|apply Z.div_lt_upper_bound; lia]. }
  destruct (Hdig r Hr) as [Hr1 Hr2]. destruct (Hdig g Hg) as [Hg1 Hg2].
  destruct (Hdig b Hb) as [Hb1 Hb2].
  assert (Pos.of_hex_uint D = N.pos (Z.to_pos V)) as Hval.
  { unfold D. simpl. f_equal. rewrite !hexCons_value by done. simpl.
    apply Pos2Z.inj. rewrite !Z2Pos.id; unfold V;
      pose proof (Z.div_mod r 16); pose proof (Z.div_mod g 16);
      pose proof (Z.div_mod b 16); lia. }
  assert (Z.to_hex_int V = Hexadecimal.Pos D) as Hhex.
  { pose proof (HexadecimalPos.Unsigned.to_of D) as Hto. rewrite Hval in Hto.
    replace V with (Z.pos (Z.to_pos V)) by (apply Z2Pos.id; unfold V; lia).
    simpl in *. by rewrite Hto. }
  unfold toString16. rewrite Hhex. unfold D. simpl.
  by rewrite !hexCons_string.
Qed.
End hex.

Lemma rgbToHex_digits (r g b : Z) :
  0 ≤ r < 256 → 0 ≤ g < 256 → 0 ≤ b < 256 →
  rgbToHex r g b = "#" +:+ hex2 r +:+ hex2 g +:+ hex2 b.
Proof.
  intros Hr Hg Hb. rewrite rgbToHex_bytes, toString16_rgb by done. done.
Qed.

(** X7. On bytes [rgbToHex] prints a [#] and six lower-case hexadecimal
    digits, two per channel with a leading zero where needed: seven
    characters in all. *)
Theorem rgbToHex_format (r g b : Z) :
  0 ≤ r < 256 → 0 ≤ g < 256 → 0 ≤ b < 256 →
  rgbToHex r g b = "#" +:+ hex2 r +:+ hex2 g +:+ hex2 b
  ∧ String.length (rgbToHex r g b) = 7%nat.
Proof.
  intros Hr Hg Hb. rewrite rgbToHex_digits by done. done.
Qed.

Lemma rgbToHex_format_witness :
  rgbToHex 255 10 0 = "#ff0a00" ∧ String.length (rgbToHex 255 10 0) = 7%nat.
Proof. apply (rgbToHex_format 255 10 0); lia. Defined.

(** X8. Distinct byte triples print as distinct colours. *)
Theorem rgbToHex_inj (r g b r' g' b' : Z) :
  0 ≤ r < 256 → 0 ≤ g < 256 → 0 ≤ b < 256 →
  0 ≤ r' < 256 → 0 ≤ g' < 256 → 0 ≤ b' < 256 →
  rgbToHex r g b = rgbToHex r' g' b' →
  r = r' ∧ g = g' ∧ b = b'.
Proof.
  intros Hr Hg Hb Hr' Hg' Hb' Heq.
  rewrite (rgbToHex_digits r g b Hr Hg Hb) in Heq.
  rewrite (rgbToHex_digits r' g' b' Hr' Hg' Hb') in Heq.
  assert (∀ v w, 0 ≤ v < 256 → 0 ≤ w < 256 →
            hexChar (v / 16) = hexChar (w / 16) →
            hexChar (v mod 16) = hexChar (w mod 16) → v = w) as Hbyte.
  { intros v w Hv Hw Hhi Hlo.
    apply hexChar_inj in Hhi;
      [|split; [apply Z.div_pos; lia|apply Z.div_lt_upper_bound; lia]..].
    apply hexChar_inj in Hlo; [|apply Z.mod_pos_bound; lia..].
    rewrite (Z.div_mod v 16), (Z.div_mod w 16) by lia. congruence. }
  unfold hex2 in Heq. simpl in Heq. injection Heq as H1 H2 H3 H4 H5 H6.
  split_and!; by apply Hbyte.
Qed.

Lemma rgbToHex_inj_witness : 18 = 18 ∧ 52 = 52 ∧ 86 = 86.
Proof. apply (rgbToHex_inj 18 52 86 18 52 86); (lia || reflexivity). Defined.

(** X9. Every cell that the quantizer emits is [transparent] or a colour of
    seven characters, the [#rrggbb] of one of its pixels. *)
Theorem quantize_cells (size : Z) (data : list Z) (hexGrid : list string)
    (cell : string) :
  Z.of_nat (length data) = 4 * size * size →
  Forall (λ v, 0 ≤ v < 256) data →
  processImageToGrid (Drawn data) = Some (Resolved hexGrid) →
  cell ∈ hexGrid →
  cell = transparent
  ∨ ∃ r g b,
      0 ≤ r < 256 ∧ 0 ≤ g < 256 ∧ 0 ≤ b < 256
      ∧ cell = "#" +:+ hex2 r +:+ hex2 g +:+ hex2 b
      ∧ String.length cell = 7%nat.
Proof.
  intros Hlen Hbytes Hrun Hcell.
  destruct (quantize_defined (Z.to_nat (size * size)) data ltac:(lia))
    as (hg & Hq & Hhg & Hcells).
  simpl in Hrun. rewrite Hq in Hrun. simplify_eq/=.
  apply list_elem_of_lookup_1 in Hcell as [i Hi].
  pose proof (lookup_lt_Some _ _ _ Hi) as Hlt.
  rewrite Hcells in Hi by lia. simplify_eq. unfold classify.
  destruct (_ || _); [by left|right].
  assert (∀ k : nat, (k < length data)%nat → 0 ≤ data !!! k < 256) as Hb.
  { intros k Hk. by apply (Forall_lookup_total_1 _ _ _ Hbytes). }
  set (r := data !!! (4 * i)%nat). set (g := data !!! (4 * i + 1)%nat).
  set (b := data !!! (4 * i + 2)%nat).
  assert (0 ≤ r < 256) as Hr by (apply Hb; lia).
  assert (0 ≤ g < 256) as Hg by (apply Hb; lia).
  assert (0 ≤ b < 256) as Hbl by (apply Hb; lia).
  pose proof (rgbToHex_digits r g b Hr Hg Hbl) as Hfmt.
  exists r, g, b.
  split; [exact Hr|]. split; [exact Hg|]. split; [exact Hbl|].
  split; [exact Hfmt|]. etrans; [exact (f_equal String.length Hfmt)|done].
Qed.

Lemma quantize_cells_witness :
  rgbToHex 100 0 0 = transparent
  ∨ ∃ r g b,
      0 ≤ r < 256 ∧ 0 ≤ g < 256 ∧ 0 ≤ b < 256
      ∧ rgbToHex 100 0 0 = "#" +:+ hex2 r +:+ hex2 g +:+ hex2 b
      ∧ String.length (rgbToHex 100 0 0) = 7%nat.
Proof.
  apply (quantize_cells 2
           [0; 0; 0; 255; 100; 0; 0; 255; 59; 0; 0; 255; 200; 200; 200; 49]
           [transparent; rgbToHex 100 0 0; transparent; transparent]).
  - reflexivity.
  - repeat constructor; lia.
  - reflexivity.
  - apply (list_elem_of_lookup_2 _ 1%nat). reflexivity.
Defined.

(** X10. Against a black reference pixel a grey [(v, v, v)] is kept only
    from [v = 35] on: the dark grey [#222222] that the image prompt
    prescribes for outlines on its black background is still within the
    threshold and comes out transparent. *)
Theorem quantize_grey_on_black (size : Z) (data : list Z)
    (hexGrid : list string) (i : nat) (v a : Z) :
  Z.of_nat (length data) = 4 * size * size →
  processImageToGrid (Drawn data) = Some (Resolved hexGrid) →
  data !! 0%nat = Some 0 → data !! 1%nat = Some 0 → data !! 2%nat = Some 0 →
  data !! (4 * i)%nat = Some v → data !! (4 * i + 1)%nat = Some v →
  data !! (4 * i + 2)%nat = Some v → data !! (4 * i + 3)%nat = Some a →
  0 ≤ v →
  (hexGrid !! i = Some transparent ↔ a < 50 ∨ v ≤ 34)
  ∧ (v = 34 → hexGrid !! i = Some transparent).
Proof.
  intros Hlen Hrun H0 H1 H2 Hr Hg Hb Ha Hv.
  destruct (quantize_defined (Z.to_nat (size * size)) data ltac:(lia))
    as (hg & Hq & Hhg & Hcells).
  simpl in Hrun. rewrite Hq in Hrun. simpl in Hrun.
  injection Hrun as ->.
  apply lookup_lt_Some in Ha as Hlt.
  rewrite (Hcells i) by lia.
  rewrite (list_lookup_total_correct _ _ _ H0),
    (list_lookup_total_correct _ _ _ H1),
    (list_lookup_total_correct _ _ _ H2),
    (list_lookup_total_correct _ _ _ Hr),
    (list_lookup_total_correct _ _ _ Hg),
    (list_lookup_total_correct _ _ _ Hb),
    (list_lookup_total_correct _ _ _ Ha).
  assert (isBg v v v 0 0 0 = true ↔ v ≤ 34) as Hbg.
  { unfold isBg, threshold, sqDist. rewrite bool_decide_eq_true.
    rewrite <-(Z.sqrt_lt_square _ 60) by nia. nia. }
  assert (classify 0 0 0 v v v a = transparent ↔ a < 50 ∨ v ≤ 34) as Hcl.
  { unfold classify. destruct (bool_decide (a < 50)) eqn:Ha50; simpl.
    - apply bool_decide_eq_true in Ha50. tauto.
    - apply bool_decide_eq_false in Ha50.
      destruct (isBg v v v 0 0 0) eqn:HisBg.
      + split; [|done]. intros _. right. by apply Hbg.
      + split; [intros Heq; by apply rgbToHex_opaque in Heq|].
        intros [?|Hle]; [done|]. apply Hbg in Hle. congruence. }
  split.
  - rewrite <-Hcl. split; [congruence|by intros ->].
  - intros ->. f_equal. apply Hcl. lia.
Qed.

Lemma quantize_grey_on_black_witness :
  [transparent; transparent; "#232323"; transparent] !! 1%nat
  = Some transparent.
Proof.
  apply (quantize_grey_on_black 2
           [0; 0; 0; 255; 34; 34; 34; 255; 35; 35; 35; 255; 0; 0; 0; 255]
           [transparent; transparent; "#232323"; transparent] 1 34 255);
    (reflexivity || lia).
Defined.

(** ** More on the raster editor *)

Section brush_changes.
Context (size : Z) (newColor : string).
Implicit Types (c old : list jsval) (acc : list jsval * bool).

Lemma repainted_step old acc py px :
  repainted newColor old acc →
  repainted newColor old (paintStep size newColor py acc px).
Proof.
  destruct acc as [c hc]. intros [Hcells Hflag]. split.
  - intros j. rewrite paintStep_get. case_decide; [by right|apply Hcells].
  - unfold paintStep. simpl in *.
    destruct (decide (px >= 0 ∧ px < size ∧ py >= 0 ∧ py < size)) as [Hin|];
      [|done].
    destruct (decide (js_get c (py * size + px) ≠ str newColor)) as [Hne|];
      [|done].
    intros _. exists (py * size + px). simpl. split.
    + rewrite js_get_set, Z2Nat.id by nia. by rewrite decide_True.
    + by destruct (Hcells (py * size + px)) as [<-|?].
Qed.

Lemma repainted_rows ys xs old acc :
  repainted newColor old acc →
  repainted newColor old (paintRows size newColor ys xs acc).
Proof.
  unfold paintRows. revert acc. induction ys as [|py ys IH]; [done|].
  intros acc Hacc. simpl. apply IH. unfold paintRow. clear IH.
  revert acc Hacc. induction xs as [|px xs IH]; [done|].
  intros acc Hacc. simpl. by apply IH, repainted_step.
Qed.

End brush_changes.

Section editor_extras.
Implicit Types (σ : gmap nat (list jsval)) (grid : nat) (ts : ToolState).
Implicit Types (content : list jsval).

(** The array the consumers hold after a brush call, in either case. *)
Lemma gridAfter_run_brush grid size ts x y σ content :
  σ !! grid = Some content →
  inBounds size x y → activeTool ts ≠ magic_eraser →
  gridAfter grid (applyTool (Some grid) size ts x y σ)
  = (paintRows size (brushColor ts)
       (seqZ (y - brushSize ts / 2) (brushSize ts))
       (seqZ (x - brushSize ts / 2) (brushSize ts)) (content, false)).1.
Proof.
  intros Hgrid Hin Htool. rewrite applyTool_run_brush by done.
  rewrite (contents_lookup _ _ _ Hgrid). unfold gridAfter.
  pose proof (paintRows_painted size (brushColor ts)
                (seqZ (y - brushSize ts / 2) (brushSize ts))
                (seqZ (x - brushSize ts / 2) (brushSize ts))
                _ content false _
                (painted_init size (brushColor ts) content false))
    as (_ & _ & _ & Hflag).
  destruct (paintRows _ _ _ _ _) as [painted_copy hc]. simpl in *.
  destruct hc; simpl; [apply contents_insert|].
  destruct Hflag as [?|Heq]; [done|]. simplify_eq.
  by apply contents_lookup, lookup_insert_fresh.
Qed.

Lemma gridAfter_contents grid (res : option nat * gmap nat (list jsval)) :
  gridAfter grid res = contents (default grid res.1) res.2.
Proof. unfold gridAfter. by destruct res.1. Qed.
End editor_extras.



(** X12. The brush tools are idempotent: a second application of the same
    tool with the same brush at the same cell, on the grid the first one
    left, reports no change. *)
Theorem applyTool_brush_idempotent (σ : gmap nat (list jsval)) (grid : nat)
    (content : list jsval) (size x y : Z) (ts : ToolState) :
  σ !! grid = Some content →
  activeTool ts ≠ magic_eraser →
  let first := applyTool (Some grid) size ts x y σ in
  (applyTool (Some (default grid first.1)) size ts x y first.2).1 = None.
Proof.
  intros Hgrid Htool first.
  destruct (decide (inBounds size x y)) as [Hin|Hout].
  - assert (∃ painted_copy,
              first.2 !! default grid first.1 = Some painted_copy
              ∧ painted size (brushColor ts) (inFootprint (brushSize ts) x y)
                  content false (painted_copy, true))
      as (painted_copy & Hlook & Hpainted & _).
    { pose proof (gridAfter_brush grid size ts x y σ content Hgrid Hin Htool)
        as Hp.
      rewrite gridAfter_contents in Hp. fold first in Hp.
      eexists. split; [|exact Hp]. unfold contents.
      assert (is_Some (first.2 !! default grid first.1)) as [c Hc];
        [|by rewrite Hc].
      subst first. rewrite applyTool_run_brush by done. simpl.
      destruct (paintRows _ _ _ _ _) as [c hc]. destruct hc; simpl.
      - rewrite lookup_insert_eq. eauto.
      - erewrite lookup_insert_fresh; eauto. }
    rewrite applyTool_run_brush by done.
    rewrite (contents_lookup _ _ _ Hlook), paintRows_idle; [done|].
    intros px py Hpx Hpy Hb. apply elem_of_seqZ in Hpx, Hpy.
    apply Hpainted; [|done]. unfold inFootprint. lia.
  - by rewrite applyTool_run_outside.
Qed.

Lemma applyTool_brush_idempotent_witness :
  (applyTool
     (Some
        (default 0%nat
           (applyTool (Some 0%nat) 2 (MkToolState pencil 2 "#0000ff") 1 1
              sampleStore).1))
     2 (MkToolState pencil 2 "#0000ff") 1 1
     (applyTool (Some 0%nat) 2 (MkToolState pencil 2 "#0000ff") 1 1
        sampleStore).2).1
  = None.
Proof.
  apply (applyTool_brush_idempotent sampleStore 0%nat sampleGrid 2 1 1
           (MkToolState pencil 2 "#0000ff")).
  - reflexivity.
  - discriminate.
Defined.

(** X13. After the magic eraser has been applied at a cell that held a
    colour, that colour is gone from the grid, and a second application at
    the same cell reports no change. *)
Theorem magic_eraser_twice (σ : gmap nat (list jsval))
    (grid : nat) (content : list jsval) (size x y : Z) (ts : ToolState)
    (C : string) :
  σ !! grid = Some content →
  activeTool ts = magic_eraser →
  inBounds size x y →
  js_get content (y * size + x) = str C →
  let first := applyTool (Some grid) size ts x y σ in
  (C ≠ transparent → str C ∉ gridAfter grid first)
  ∧ (applyTool (Some (default grid first.1)) size ts x y first.2).1 = None.
Proof.
  intros Hgrid Htool Hin HC first.
  assert (first
          = if decide (str C ≠ str transparent)
            then (Some (fresh (dom σ)),
                  <[fresh (dom σ) := eraseColor (str C) content]> σ)
            else (None, <[fresh (dom σ) := content]> σ)) as Hfirst.
  { subst first. rewrite (applyTool_run_magic grid size ts x y σ Hin Htool).
    by rewrite (contents_lookup _ _ _ Hgrid), HC. }
  rewrite gridAfter_contents, Hfirst. clear Hfirst first.
  destruct (decide (str C ≠ str transparent)) as [Hne|Heq];
    cbn [fst snd default from_option].
  - rewrite contents_insert. split.
    + intros _ Hmem. apply list_elem_of_fmap in Hmem as (v & Hv & _).
      case_decide; congruence.
    + rewrite applyTool_run_magic, contents_insert by done.
      assert (js_get (eraseColor (str C) content) (y * size + x)
              = str transparent) as ->.
      { unfold js_get in *. case_decide; [done|].
        rewrite eraseColor_lookup.
        destruct (content !! Z.to_nat (y * size + x)) as [v|]; [|done].
        simpl in *. subst v. by rewrite decide_True. }
      cbn zeta. by rewrite decide_False by (intros H; by apply H).
  - apply dec_stable in Heq. injection Heq as ->. split; [done|].
    rewrite applyTool_run_magic by done.
    assert (contents grid (<[fresh (dom σ):=content]> σ) = content) as ->.
    { by apply contents_lookup, lookup_insert_fresh. }
    rewrite HC. cbn zeta. by rewrite decide_False by (intros H; by apply H).
Qed.

Lemma magic_eraser_twice_witness :
  (applyTool
     (Some
        (default 0%nat
           (applyTool (Some 0%nat) 2 (MkToolState magic_eraser 1 "#ffffff")
              1 0 sampleStore).1))
     2 (MkToolState magic_eraser 1 "#ffffff") 1 0
     (applyTool (Some 0%nat) 2 (MkToolState magic_eraser 1 "#ffffff") 1 0
        sampleStore).2).1
  = None.
Proof.
  apply (magic_eraser_twice sampleStore 0%nat sampleGrid
           2 1 0 (MkToolState magic_eraser 1 "#ffffff") "#00ff00").
  - reflexivity.
  - reflexivity.
  - unfold inBounds. lia.
  - reflexivity.
Defined.

(** X14. A brush of size 1 at a cell of the array replaces that one cell:
    the grid after the call is the grid with cell [y * size + x] set to the
    tool's colour. *)
Theorem applyTool_single_cell (σ : gmap nat (list jsval)) (grid : nat)
    (content : list jsval) (size x y : Z) (ts : ToolState) :
  σ !! grid = Some content →
  activeTool ts ≠ magic_eraser →
  brushSize ts = 1 →
  inBounds size x y →
  y * size + x < Z.of_nat (length content) →
  gridAfter grid (applyTool (Some grid) size ts x y σ)
  = <[Z.to_nat (y * size + x) := str (brushColor ts)]> content.
Proof.
  intros Hgrid Htool Hb Hin Hlen.
  rewrite (gridAfter_run_brush grid size ts x y σ content) by done.
  rewrite Hb. change (1 / 2) with 0. rewrite !Z.sub_0_r.
  change (seqZ y 1) with [y]. change (seqZ x 1) with [x].
  unfold paintRows, paintRow, paintStep. simpl.
  rewrite decide_True by done.
  unfold inBounds in Hin.
  destruct (decide (js_get content (y * size + x) ≠ str (brushColor ts)))
    as [Hne|Heq]; simpl.
  - unfold js_set. rewrite decide_True by nia. done.
  - apply dec_stable in Heq. unfold js_get in Heq.
    rewrite decide_False in Heq by nia. symmetry. apply list_insert_id.
    destruct (content !! Z.to_nat (y * size + x)) as [v|] eqn:Hv;
      simpl in Heq; [congruence|].
    apply lookup_ge_None in Hv. nia.
Qed.

Lemma applyTool_single_cell_witness :
  gridAfter 0%nat
    (applyTool (Some 0%nat) 2 (MkToolState pencil 1 "#0000ff") 1 1
       sampleStore)
  = [str "#ff0000"; str "#00ff00"; str "#00ff00"; str "#0000ff"].
Proof.
  apply (applyTool_single_cell sampleStore 0%nat sampleGrid 2 1 1
           (MkToolState pencil 1 "#0000ff")).
  - reflexivity.
  - discriminate.
  - reflexivity.
  - unfold inBounds. lia.
  - simpl. lia.
Defined.

(** X15. The bounds of [applyTool] are those of the canvas, not of the
    array: a pencil of size 1 at a cell of the canvas that lies past the end
    of the array makes the array grow up to that cell, with undefined
    entries in between, and hands it over. *)
Theorem applyTool_pencil_past_end (σ : gmap nat (list jsval)) (grid : nat)
    (content : list jsval) (size x y : Z) (ts : ToolState) :
  σ !! grid = Some content →
  activeTool ts = pencil →
  brushSize ts = 1 →
  inBounds size x y →
  Z.of_nat (length content) ≤ y * size + x →
  applyTool (Some grid) size ts x y σ
  = (Some (fresh (dom σ)),
     <[fresh (dom σ) :=
         content
         ++ replicate (Z.to_nat (y * size + x) - length content) undefined
         ++ [str (drawColor ts)]]> σ).
Proof.
  intros Hgrid Htool Hb Hin Hlen.
  rewrite applyTool_run_brush by (done || congruence).
  rewrite (contents_lookup _ _ _ Hgrid).
  rewrite Hb. change (1 / 2) with 0. rewrite !Z.sub_0_r.
  change (seqZ y 1) with [y]. change (seqZ x 1) with [x].
  unfold paintRows, paintRow, paintStep, brushColor. simpl.
  rewrite decide_True by done. rewrite (decide_True (P := _ = pencil)) by done.
  assert (js_get content (y * size + x) = undefined) as Hundef.
  { unfold js_get. case_decide; [done|].
    rewrite lookup_ge_None_2; [done|lia]. }
  rewrite Hundef. rewrite decide_True by done. simpl.
  unfold js_set. by rewrite decide_False by lia.
Qed.

Lemma applyTool_pencil_past_end_witness :
  applyTool (Some 0%nat) 4 (MkToolState pencil 1 "#0000ff") 2 1 sampleStore
  = (Some (fresh (dom sampleStore)),
     <[fresh (dom sampleStore) :=
         sampleGrid ++ [undefined; undefined; str "#0000ff"]]> sampleStore).
Proof.
  apply (applyTool_pencil_past_end sampleStore 0%nat sampleGrid 4 2 1
           (MkToolState pencil 1 "#0000ff")).
  - reflexivity.
  - reflexivity.
  - reflexivity.
  - unfold inBounds. lia.
  - simpl. lia.
Defined.

(** X16. At a cell of the canvas that lies past the end of the array, the
    magic eraser reads an undefined target and calls [onGridUpdate] with a
    copy that equals the grid: a change is reported where there is none. *)
Theorem magic_eraser_past_end (σ : gmap nat (list jsval))
    (grid : nat) (content : list jsval) (size x y : Z) (ts : ToolState) :
  σ !! grid = Some content →
  activeTool ts = magic_eraser →
  inBounds size x y →
  Z.of_nat (length content) ≤ y * size + x →
  undefined ∉ content →
  applyTool (Some grid) size ts x y σ
  = (Some (fresh (dom σ)), <[fresh (dom σ) := content]> σ).
Proof.
  intros Hgrid Htool Hin Hlen Hdense.
  rewrite applyTool_run_magic by done.
  rewrite (contents_lookup _ _ _ Hgrid). simpl.
  assert (js_get content (y * size + x) = undefined) as ->.
  { unfold js_get. case_decide; [done|].
    rewrite lookup_ge_None_2; [done|lia]. }
  rewrite decide_True by done. do 2 f_equal.
  unfold eraseColor. rewrite <-(list_fmap_id content) at 2.
  apply list_fmap_ext. intros i v Hv. simpl. case_decide; [|done].
  subst v. destruct Hdense. by eapply list_elem_of_lookup_2.
Qed.

Lemma magic_eraser_past_end_witness :
  applyTool (Some 0%nat) 4 (MkToolState magic_eraser 1 "#0000ff") 2 1
    sampleStore
  = (Some (fresh (dom sampleStore)),
     <[fresh (dom sampleStore) := sampleGrid]> sampleStore).
Proof.
  apply (magic_eraser_past_end sampleStore 0%nat sampleGrid 4 2 1
           (MkToolState magic_eraser 1 "#0000ff")).
  - reflexivity.
  - reflexivity.
  - unfold inBounds. lia.
  - simpl. lia.
  - intros Hin. repeat (apply elem_of_cons in Hin as [Hin|Hin];
                          [discriminate|]).
    by apply elem_of_nil in Hin.
Defined.

(** ** Pointer events *)

Section pointer.
#[local] Open Scope Q_scope.

End pointer.



(** ** The component as a state machine *)

Section state_machine.
Implicit Types (σ : gmap nat (list jsval)) (pv : Preview) (ev : uiEvent).
Implicit Types (content : list jsval) (st : ToolState).

Lemma defaultToolEffect_pencil (g : list jsval) st :
  activeTool (defaultToolEffect (Some g) st) = pencil.
Proof.
  unfold defaultToolEffect. destruct (js_find _ g) as [|c]; [done|].
  by destruct (truthy (str c)).
Qed.

(** [find] returns an element that passes the test, or [undefined]. *)
Lemma js_find_passes (p : jsval → bool) (a : list jsval) :
  js_find p a = undefined ∨ p (js_find p a) = true.
Proof.
  induction a as [|c a IH]; [by left|]. simpl.
  destruct (p c) eqn:Hc; [by right|done].
Qed.

Lemma defaultToolEffect_drawColor (og : option (list jsval)) st :
  drawColor st ≠ transparent →
  drawColor (defaultToolEffect og st) ≠ transparent.
Proof.
  intros Hst. destruct og as [g|]; [|done]. unfold defaultToolEffect.
  destruct (js_find_passes (λ c, bool_decide (c ≠ str transparent)) g)
    as [->|Hp]; [done|].
  destruct (js_find _ g) as [|c]; [done|].
  destruct (truthy (str c)); [|done]. simpl.
  apply bool_decide_eq_true in Hp. congruence.
Qed.

(** Every tool keeps a well-formed grid well-formed. *)
Lemma applyTool_wellFormed σ (grid : nat) content size st x y :
  σ !! grid = Some content →
  wellFormed size content →
  wellFormed size (gridAfter grid (applyTool (Some grid) size st x y σ)).
Proof.
  intros Hgrid [Hlen Hdense].
  destruct (decide (inBounds size x y)) as [Hin|Hout]; first last.
  { rewrite applyTool_run_outside by done. unfold gridAfter. simpl.
    by rewrite (contents_lookup _ _ _ Hgrid). }
  destruct (decide (activeTool st = magic_eraser)) as [Hm|Hm].
  - rewrite gridAfter_contents, applyTool_run_magic by done.
    rewrite (contents_lookup _ _ _ Hgrid). cbn zeta.
    case_decide; cbn [fst snd default from_option].
    + rewrite contents_insert. unfold eraseColor.
      split; [by rewrite length_fmap|]. intros Hun.
      apply list_elem_of_fmap in Hun as (v & Hv & Hvin).
      case_decide; [done|]. by subst v.
    + rewrite (contents_lookup grid content); [by split|].
      by apply lookup_insert_fresh.
  - rewrite (gridAfter_run_brush grid size st x y σ content) by done.
    pose proof (paintRows_painted size (brushColor st)
                  (seqZ (y - brushSize st / 2) (brushSize st))
                  (seqZ (x - brushSize st / 2) (brushSize st))
                  _ content false _
                  (painted_init size (brushColor st) content false))
      as (_ & _ & Hkeep & _).
    pose proof (repainted_rows size (brushColor st)
                  (seqZ (y - brushSize st / 2) (brushSize st))
                  (seqZ (x - brushSize st / 2) (brushSize st))
                  content (content, false)) as [Hcells _].
    { split; [by left|done]. }
    destruct (paintRows _ _ _ _ _) as [c hc]. simpl in *.
    specialize (Hkeep ltac:(lia)). split; [lia|].
    intros Hun. apply list_elem_of_lookup_1 in Hun as [i Hi].
    destruct (Hcells (Z.of_nat i)) as [Hold|Hnew].
    + rewrite (js_get_lookup _ _ _ Hi) in Hold.
      apply lookup_lt_Some in Hi. rewrite Hkeep in Hi.
      apply lookup_lt_is_Some_2 in Hi as [v Hv].
      rewrite (js_get_lookup _ _ _ Hv) in Hold. subst v.
      apply Hdense. by eapply list_elem_of_lookup_2.
    + by rewrite (js_get_lookup _ _ _ Hi) in Hnew.
Qed.

(** The array handed over is in the store. *)
Lemma applyTool_handed_over σ (grid : nat) size st x y (newGrid : nat) :
  (applyTool (Some grid) size st x y σ).1 = Some newGrid →
  (applyTool (Some grid) size st x y σ).2 !! newGrid
  = Some (gridAfter grid (applyTool (Some grid) size st x y σ)).
Proof.
  rewrite gridAfter_contents.
  destruct (decide (inBounds size x y)) as [Hin|Hout]; first last.
  { by rewrite applyTool_run_outside. }
  destruct (decide (activeTool st = magic_eraser)) as [Hm|Hm].
  - rewrite applyTool_run_magic by done. cbn zeta.
    case_decide; [|done]. cbn [fst snd]. intros [= <-].
    cbn [default from_option]. by rewrite contents_insert, lookup_insert_eq.
  - rewrite applyTool_run_brush by done. cbn zeta.
    destruct (paintRows _ _ _ _ _) as [c []]; [|done]. cbn [fst snd].
    intros [= <-]. cbn [default from_option].
    by rewrite contents_insert, lookup_insert_eq.
Qed.
End state_machine.

Section events.
Implicit Types (σ : gmap nat (list jsval)) (pv : Preview) (ev : uiEvent).

(** What [applyTool] does to the component when a handler calls it. *)
Lemma applyToolAt_step x y pv σ :
  holdsGrid pv σ →
  holdsGrid (applyToolAt x y pv σ).1 (applyToolAt x y pv σ).2
  ∧ sizeProp (applyToolAt x y pv σ).1 = sizeProp pv
  ∧ tools (applyToolAt x y pv σ).1 = tools pv
  ∧ isDragging (applyToolAt x y pv σ).1 = isDragging pv
  ∧ extends σ (applyToolAt x y pv σ).2.
Proof.
  intros (g & content & Hg & Hlook & Hwf).
  pose proof (applyTool_wellFormed σ g content (sizeProp pv) (tools pv) x y
                Hlook Hwf) as Hafter.
  pose proof (applyTool_handed_over σ g (sizeProp pv) (tools pv) x y)
    as Hover.
  pose proof (λ l c, applyTool_frame g (sizeProp pv) (tools pv) x y σ l c)
    as Hframe.
  unfold applyToolAt, bind. rewrite Hg.
  rewrite gridAfter_contents in Hafter, Hover.
  destruct (applyTool (Some g) (sizeProp pv) (tools pv) x y σ)
    as [[newGrid|] σ']; simpl in *.
  - split_and!; try done. exists newGrid, (contents newGrid σ').
    split_and!; [done| |done]. by apply Hover.
  - split_and!; try done. exists g, content.
    split_and!; [done| |done]. by apply Hframe.
Qed.

Lemma handle_step ev pv σ :
  holdsGrid pv σ →
  holdsGrid (handle ev pv σ).1 (handle ev pv σ).2
  ∧ sizeProp (handle ev pv σ).1 = sizeProp pv
  ∧ extends σ (handle ev pv σ).2.
Proof.
  intros Hpv.
  assert (∀ x y pv',
            holdsGrid pv' σ → sizeProp pv' = sizeProp pv →
            holdsGrid (applyToolAt x y pv' σ).1 (applyToolAt x y pv' σ).2
            ∧ sizeProp (applyToolAt x y pv' σ).1 = sizeProp pv
            ∧ extends σ (applyToolAt x y pv' σ).2) as Happly.
  { intros x y pv' Hpv' Hsz.
    destruct (applyToolAt_step x y pv' σ Hpv') as (? & ? & _ & _ & ?).
    split_and!; [done|congruence|done]. }
  assert (∀ pv', holdsGrid pv σ → gridProp pv' = gridProp pv →
                 sizeProp pv' = sizeProp pv → holdsGrid pv' σ) as Hsame.
  { intros pv' (g & c & ? & ? & ?) Hg Hsz. exists g, c.
    rewrite Hg, Hsz. done. }
  destruct ev as [p|p| | |t|n|c]; simpl.
  - unfold handleMouseDown.
    destruct (getPixelCoords _ _ _) as [|x y|];
      [|apply Happly; [by apply Hsame|done]|];
      (split_and!; [by apply Hsame|done|by intros l a]).
  - unfold handleMouseMove. destruct (_ || _).
    { split_and!; [done|done|by intros l a]. }
    destruct (getPixelCoords _ _ _) as [|x y|]; [|by apply Happly|];
      (split_and!; [done|done|by intros l a]).
  - split_and!; [by apply Hsame|done|by intros l a].
  - split_and!; [by apply Hsame|done|by intros l a].
  - split_and!; [by apply Hsame|done|by intros l a].
  - split_and!; [by apply Hsame|done|by intros l a].
  - split_and!; [by apply Hsame|done|by intros l a].
Qed.

(** The effects change the tool state only. *)
Lemma afterRender_step before now σ :
  gridProp (afterRender before now σ).1 = gridProp now
  ∧ sizeProp (afterRender before now σ).1 = sizeProp now
  ∧ isDragging (afterRender before now σ).1 = isDragging now
  ∧ (afterRender before now σ).2 = σ.
Proof. unfold afterRender. by case_decide. Qed.

Lemma dispatch_step ev pv σ :
  holdsGrid pv σ →
  holdsGrid (dispatch ev pv σ).1 (dispatch ev pv σ).2
  ∧ sizeProp (dispatch ev pv σ).1 = sizeProp pv
  ∧ extends σ (dispatch ev pv σ).2.
Proof.
  intros Hpv. destruct (handle_step ev pv σ Hpv) as (Hnow & Hsz & Hext).
  unfold dispatch, bind. destruct (handle ev pv σ) as [now σ']. simpl in *.
  destruct (afterRender_step pv now σ') as (Hg & Hs & _ & Hσ).
  rewrite Hσ, Hs. split_and!; [|done..].
  destruct Hnow as (g & c & ? & ? & ?). exists g, c. rewrite Hg, Hs. done.
Qed.
End events.

(** X18. Whatever the user does with mouse and toolbar, the component keeps
    showing a well-formed grid, an array in the store with one string per
    cell of the canvas, and every array that was in the store before, each
    earlier grid among them, is still there unchanged. *)
Theorem dispatchAll_keeps_grid (evs : list uiEvent) (pv : Preview)
    (σ : gmap nat (list jsval)) :
  holdsGrid pv σ →
  holdsGrid (dispatchAll evs pv σ).1 (dispatchAll evs pv σ).2
  ∧ sizeProp (dispatchAll evs pv σ).1 = sizeProp pv
  ∧ extends σ (dispatchAll evs pv σ).2.
Proof.
  revert pv σ. induction evs as [|ev evs IH]; intros pv σ Hpv.
  { split_and!; [done|done|by intros l a]. }
  simpl. unfold bind.
  destruct (dispatch_step ev pv σ Hpv) as (Hnext & Hsz & Hext).
  destruct (dispatch ev pv σ) as [pv' σ']. simpl in *.
  destruct (IH pv' σ' Hnext) as (Hend & Hsz' & Hext').
  split_and!; [done|congruence|]. intros l c Hl. by apply Hext', Hext.
Qed.

Lemma dispatchAll_keeps_grid_witness :
  sizeProp
    (dispatchAll
       [PickTool eraser; MouseDown (MkPointer 7 1); MouseMove (MkPointer 1 7);
        MouseUp]
       (MkPreview (Some 0%nat) 2 initialToolState false 6
          (Some (MkDOMRect 0 0)))
       sampleStore).1
  = 2.
Proof.
  apply (dispatchAll_keeps_grid
           [PickTool eraser; MouseDown (MkPointer 7 1);
            MouseMove (MkPointer 1 7); MouseUp]
           (MkPreview (Some 0%nat) 2 initialToolState false 6
              (Some (MkDOMRect 0 0)))
           sampleStore).
  exists 0%nat, sampleGrid. split; [reflexivity|]. split; [reflexivity|].
  split; [reflexivity|]. intros Hin.
  repeat (apply elem_of_cons in Hin as [Hin|Hin]; [discriminate|]).
  by apply elem_of_nil in Hin.
Defined.

Section grid_changes.
Implicit Types (σ : gmap nat (list jsval)) (pv : Preview) (ev : uiEvent).

Lemma applyToolAt_grid x y pv σ :
  gridProp (applyToolAt x y pv σ).1 = gridProp pv
  ∨ ∃ newGrid,
      gridProp (applyToolAt x y pv σ).1 = Some newGrid
      ∧ (applyToolAt x y pv σ).2 !! newGrid ≠ None.
Proof.
  unfold applyToolAt, bind.
  destruct (gridProp pv) as [g|] eqn:Hg; [|by left].
  pose proof (applyTool_handed_over σ g (sizeProp pv) (tools pv) x y)
    as Hover.
  destruct (applyTool (Some g) (sizeProp pv) (tools pv) x y σ)
    as [[newGrid|] σ']; simpl in *; [|by left].
  right. exists newGrid. split; [done|]. by rewrite (Hover newGrid).
Qed.

Lemma applyToolAt_tools x y pv σ :
  tools (applyToolAt x y pv σ).1 = tools pv.
Proof.
  unfold applyToolAt, bind. by destruct (applyTool _ _ _ _ _ _) as [[?|] ?].
Qed.

(** Which handler can replace the grid, and when. *)
Lemma handle_grid ev pv σ :
  gridProp (handle ev pv σ).1 ≠ gridProp pv →
  (∃ newGrid, gridProp (handle ev pv σ).1 = Some newGrid)
  ∧ ((∃ p, ev = MouseDown p ∧ isDragging (handle ev pv σ).1 = true)
     ∨ (∃ p, ev = MouseMove p ∧ isDragging pv = true
             ∧ activeTool (tools pv) ≠ magic_eraser)).
Proof.
  destruct ev as [p|p| | |t|n|c]; simpl; try done.
  - unfold handleMouseDown.
    destruct (getPixelCoords _ _ _) as [|x y|]; try done.
    intros Hne.
    destruct (applyToolAt_grid x y (setIsDragging true pv) σ)
      as [Hsame|(newGrid & Hnew & _)]; [done|].
    split; [by exists newGrid|]. left. exists p. split; [done|].
    unfold applyToolAt, bind.
    by destruct (applyTool _ _ _ _ _ _) as [[?|] ?].
  - unfold handleMouseMove.
    destruct (isDragging pv) eqn:Hdrag; simpl; [|done].
    destruct (bool_decide _) eqn:Htool; [done|].
    apply bool_decide_eq_false in Htool.
    destruct (getPixelCoords _ _ _) as [|x y|]; try done.
    intros Hne.
    destruct (applyToolAt_grid x y pv σ) as [Hsame|(newGrid & Hnew & _)];
      [done|].
    split; [by exists newGrid|]. right. by exists p.
Qed.
End grid_changes.

(** X19. Every event that replaces the grid leaves the pencil selected,
    whichever tool made the change: the effect on the [grid] prop runs
    after each edit, not only when a generated grid arrives.  A press with
    the eraser that erases something thus ends with the pencil active and
    the drag armed. *)
Theorem dispatch_new_grid_selects_pencil (ev : uiEvent) (pv : Preview)
    (σ : gmap nat (list jsval)) :
  gridProp (dispatch ev pv σ).1 ≠ gridProp pv →
  activeTool (tools (dispatch ev pv σ).1) = pencil
  ∧ ((∃ p, ev = MouseDown p) → isDragging (dispatch ev pv σ).1 = true).
Proof.
  unfold dispatch, bind.
  pose proof (handle_grid ev pv σ) as Hhandle.
  destruct (handle ev pv σ) as [now σ']. simpl in *.
  unfold afterRender. case_decide as Hsame; [done|]. simpl. intros Hne.
  destruct (Hhandle Hne) as [[newGrid Hnew] Hcause]. rewrite Hnew. simpl.
  split; [apply defaultToolEffect_pencil|].
  intros [p ->]. destruct Hcause as [(q & _ & Hdrag)|(q & Hq & _)]; done.
Qed.

Lemma dispatch_new_grid_selects_pencil_witness :
  activeTool
    (tools
       (dispatch (MouseDown (MkPointer 7 1))
          (MkPreview (Some 0%nat) 2 (MkToolState eraser 1 "#ffffff") false 6
             (Some (MkDOMRect 0 0)))
          sampleStore).1)
  = pencil.
Proof.
  apply (dispatch_new_grid_selects_pencil (MouseDown (MkPointer 7 1))
           (MkPreview (Some 0%nat) 2 (MkToolState eraser 1 "#ffffff") false 6
              (Some (MkDOMRect 0 0)))
           sampleStore).
  vm_compute. discriminate.
Defined.

(** X20. The grid is replaced only by a press, or by a move while the drag
    is armed and the active tool is not the magic eraser; the toolbar,
    releasing the button and leaving the container never replace it. *)
Theorem dispatch_grid_change_cause (ev : uiEvent) (pv : Preview)
    (σ : gmap nat (list jsval)) :
  gridProp (dispatch ev pv σ).1 ≠ gridProp pv →
  (∃ p, ev = MouseDown p)
  ∨ (∃ p, ev = MouseMove p ∧ isDragging pv = true
          ∧ activeTool (tools pv) ≠ magic_eraser).
Proof.
  unfold dispatch, bind.
  pose proof (handle_grid ev pv σ) as Hhandle.
  destruct (handle ev pv σ) as [now σ']. simpl in *.
  destruct (afterRender_step pv now σ') as (-> & _).
  intros Hne. destruct (Hhandle Hne) as [_ [(p & -> & _)|Hmove]].
  - left. by exists p.
  - by right.
Qed.

Lemma dispatch_grid_change_cause_witness :
  (∃ p, MouseDown (MkPointer 7 1) = MouseDown p)
  ∨ (∃ p, MouseDown (MkPointer 7 1) = MouseMove p ∧ false = true
          ∧ eraser ≠ magic_eraser).
Proof.
  apply (dispatch_grid_change_cause (MouseDown (MkPointer 7 1))
           (MkPreview (Some 0%nat) 2 (MkToolState eraser 1 "#ffffff") false 6
              (Some (MkDOMRect 0 0)))
           sampleStore).
  vm_compute. discriminate.
Defined.

(** X21. While no button is held, nothing but a press edits the grid:
    after any sequence of moves, releases and toolbar actions the component
    shows the same array, and the store is as it was. *)
Theorem dispatchAll_hover (evs : list uiEvent) (pv : Preview)
    (σ : gmap nat (list jsval)) :
  isDragging pv = false →
  Forall (λ ev, ∀ p, ev ≠ MouseDown p) evs →
  gridProp (dispatchAll evs pv σ).1 = gridProp pv
  ∧ (dispatchAll evs pv σ).2 = σ.
Proof.
  intros Hdrag Hevs. revert pv Hdrag.
  induction Hevs as [|ev evs Hev _ IH]; intros pv Hdrag; [done|].
  simpl. unfold bind.
  assert (∃ now, handle ev pv σ = (now, σ) ∧ gridProp now = gridProp pv
                 ∧ isDragging now = false) as (now & Hnow & Hg & Hd).
  { destruct ev as [p|p| | |t|n|c]; simpl; try by eexists.
    - by destruct (Hev p).
    - unfold handleMouseMove. rewrite Hdrag. simpl. by eexists. }
  unfold dispatch, bind. rewrite Hnow. unfold afterRender.
  rewrite decide_True by done. simpl.
  destruct (IH now Hd) as [Hgrid Hstore]. split; [congruence|done].
Qed.

Lemma dispatchAll_hover_witness :
  (dispatchAll [MouseMove (MkPointer 7 1); PickTool eraser; MouseUp]
     (MkPreview (Some 0%nat) 2 initialToolState false 6
        (Some (MkDOMRect 0 0)))
     sampleStore).2
  = sampleStore.
Proof.
  apply (dispatchAll_hover
           [MouseMove (MkPointer 7 1); PickTool eraser; MouseUp]
           (MkPreview (Some 0%nat) 2 initialToolState false 6
              (Some (MkDOMRect 0 0)))
           sampleStore).
  - reflexivity.
  - repeat constructor; discriminate.
Defined.

(** X22. The pencil never holds the transparent sentinel: if the draw
    colour is not [transparent] and the colour picker never yields it, the
    draw colour is not [transparent] after any sequence of events. *)
Theorem dispatchAll_drawColor (evs : list uiEvent) (pv : Preview)
    (σ : gmap nat (list jsval)) :
  drawColor (tools pv) ≠ transparent →
  Forall (λ ev, ev ≠ PickColor transparent) evs →
  drawColor (tools (dispatchAll evs pv σ).1) ≠ transparent.
Proof.
  intros Hcol Hevs. revert pv σ Hcol.
  induction Hevs as [|ev evs Hev _ IH]; intros pv σ Hcol; [done|].
  simpl. unfold bind.
  assert (drawColor (tools (dispatch ev pv σ).1) ≠ transparent) as Hnext.
  { unfold dispatch, bind.
    assert (drawColor (tools (handle ev pv σ).1) ≠ transparent) as Hnow.
    { destruct ev as [p|p| | |t|n|c]; simpl; try done.
      - unfold handleMouseDown.
        destruct (getPixelCoords _ _ _) as [|x y|]; try done.
        by rewrite applyToolAt_tools.
      - unfold handleMouseMove. destruct (_ || _); [done|].
        destruct (getPixelCoords _ _ _) as [|x y|]; try done.
        by rewrite applyToolAt_tools.
      - congruence. }
    destruct (handle ev pv σ) as [now σ']. simpl in *.
    unfold afterRender. case_decide; [done|]. simpl.
    by apply defaultToolEffect_drawColor. }
  destruct (dispatch ev pv σ) as [pv' σ']. by apply IH.
Qed.

Lemma dispatchAll_drawColor_witness :
  drawColor
    (tools
       (dispatchAll [PickTool eraser; MouseDown (MkPointer 7 1)]
          (MkPreview (Some 0%nat) 2 initialToolState false 6
             (Some (MkDOMRect 0 0)))
          sampleStore).1)
  ≠ transparent.
Proof.
  apply (dispatchAll_drawColor [PickTool eraser; MouseDown (MkPointer 7 1)]
           (MkPreview (Some 0%nat) 2 initialToolState false 6
              (Some (MkDOMRect 0 0)))
           sampleStore).
  - discriminate.
  - repeat constructor; discriminate.
Defined.

(** ** Drawing: the export and the preview *)

Section drawing.
Context (isColor : string → bool) (size : Z).
Implicit Types (grid a : list string) (ctx : context2d) (k : canvasCall).

(** A block of side [s] at column [r] and row [q] covers the pixel
    [(X, Y)] exactly when [r] and [q] are the pixel's column and row. *)
Lemma block_covers (s r q X Y : Z) :
  0 < s →
  (r * s ≤ X < r * s + s ∧ q * s ≤ Y < q * s + s) ↔ (r = X / s ∧ q = Y / s).
Proof.
  intros Hs. split.
  - intros [HX HY]. split.
    + apply (Z.div_unique_pos X s r (X - r * s)); lia.
    + apply (Z.div_unique_pos Y s q (Y - q * s)); lia.
  - intros [-> ->].
    pose proof (Z.div_mod X s ltac:(lia)).
    pose proof (Z.mod_pos_bound X s Hs).
    pose proof (Z.div_mod Y s ltac:(lia)).
    pose proof (Z.mod_pos_bound Y s Hs). lia.
Qed.

(** The cell with column [x] and row [y] is the cell of index
    [y * size + x], the one that [applyTool (x, y)] edits. *)
Lemma cell_index (i x y : Z) :
  0 < size → 0 ≤ i → 0 ≤ x < size →
  (Z.rem i size = x ∧ i / size = y) ↔ i = y * size + x.
Proof.
  intros Hsize Hi Hx. rewrite Z.rem_mod_nonneg by lia. split.
  - intros [<- <-]. pose proof (Z.div_mod i size ltac:(lia)). lia.
  - intros ->. split.
    + symmetry. apply (Z.mod_unique_pos _ size y x); lia.
    + symmetry. apply (Z.div_unique_pos _ size y x); lia.
Qed.

Lemma calls_exportCell c i ctx :
  c = transparent ∨ isColor c = true →
  calls (exportCell isColor size c i ctx)
  = calls ctx
    ++ (if decide (c = transparent) then []
        else [FillRect c (Z.rem i size * exportScale)
                (i / size * exportScale) exportScale exportScale]).
Proof.
  intros Hc. unfold exportCell. case_decide as Ht.
  { by rewrite (right_id_L [] (++)). }
  destruct Hc as [?|Hc]; [done|]. unfold setFillStyle. by rewrite Hc.
Qed.

(** The calls of the export, one per cell that is not transparent. *)
Lemma export_calls_elem a (i0 : Z) ctx k :
  Forall (λ c, c = transparent ∨ isColor c = true) a →
  k ∈ calls (forEachFrom i0 a (exportCell isColor size) ctx)
  ↔ k ∈ calls ctx
    ∨ ∃ (j : nat) c,
        a !! j = Some c ∧ c ≠ transparent
        ∧ k = FillRect c (Z.rem (i0 + Z.of_nat j) size * exportScale)
                ((i0 + Z.of_nat j) / size * exportScale)
                exportScale exportScale.
Proof.
  intros Ha. revert i0 ctx.
  induction Ha as [|c a Hc _ IH]; intros i0 ctx; simpl.
  { split; [by left|]. by intros [?|(j & c & ? & _)]. }
  rewrite IH, calls_exportCell by done. split.
  - intros [Hk|(j & d & Hj & Hd & ->)].
    + apply elem_of_app in Hk as [Hk|Hk]; [by left|].
      case_decide; [by apply elem_of_nil in Hk|].
      apply list_elem_of_singleton in Hk as ->.
      right. exists 0%nat, c. by rewrite Z.add_0_r.
    + right. exists (S j), d.
      replace (i0 + Z.of_nat (S j)) with (i0 + 1 + Z.of_nat j) by lia.
      split_and!; [exact Hj|done|done].
  - intros [Hk|(j & d & Hj & Hd & ->)].
    + left. apply elem_of_app. by left.
    + destruct j as [|j].
      * simpl in Hj. injection Hj as ->. left. apply elem_of_app. right.
        rewrite decide_False by done. rewrite Z.add_0_r.
        by apply list_elem_of_singleton.
      * right. exists j, d.
        replace (i0 + 1 + Z.of_nat j) with (i0 + Z.of_nat (S j)) by lia.
        split_and!; [exact Hj|done|done].
Qed.
End drawing.

(** X23. The export paints each pixel of a canvas ten times the size of the
    grid in the colour of its cell and nothing else: every call is the fill
    of one 10 x 10 block inside the canvas, a fill reaches the pixel
    [(X, Y)] exactly if it carries the colour of cell
    [(X / 10, Y / 10)] and that cell is not transparent; the pixels of
    transparent cells are never painted. *)
Theorem downloadCanvasAsPng_pixels (isColor : string → bool) (now : Z)
    (grid : list string) (size : Z) :
  0 < size →
  Z.of_nat (length grid) = size * size →
  Forall (λ c, c = transparent ∨ isColor c = true) grid →
  ∃ file,
    downloadCanvasAsPng isColor true now grid size = Some file
    ∧ canvasWidth file = size * 10 ∧ canvasHeight file = size * 10
    ∧ (∀ k, k ∈ drawn file →
         ∃ c x y,
           k = FillRect c x y 10 10
           ∧ 0 ≤ x ∧ x + 10 ≤ canvasWidth file
           ∧ 0 ≤ y ∧ y + 10 ≤ canvasHeight file)
    ∧ ∀ X Y c,
        0 ≤ X < canvasWidth file → 0 ≤ Y < canvasHeight file →
        (∃ x y w h, FillRect c x y w h ∈ drawn file
                    ∧ covers (FillRect c x y w h) X Y)
        ↔ grid !! Z.to_nat (Y / 10 * size + X / 10) = Some c
          ∧ c ≠ transparent.
Proof.
  intros Hsize Hlen Hcolors. eexists. split; [reflexivity|]. simpl.
  unfold exportScale.
  assert (∀ j : nat, (j < length grid)%nat →
            0 ≤ Z.rem (Z.of_nat j) size < size
            ∧ 0 ≤ Z.of_nat j / size < size) as Hcell.
  { intros j Hj. rewrite Z.rem_mod_nonneg by lia. split.
    - apply Z.mod_pos_bound. lia.
    - split; [apply Z.div_pos; lia|apply Z.div_lt_upper_bound; lia]. }
  split_and!; [done|done| |].
  - intros k Hk.
    apply (export_calls_elem isColor size grid 0 newContext k Hcolors) in Hk
      as [Hk|(j & c & Hj & Hc & ->)]; [by apply elem_of_nil in Hk|].
    rewrite Z.add_0_l. apply lookup_lt_Some in Hj.
    destruct (Hcell j Hj) as [Hx Hy].
    eexists _, _, _. split; [reflexivity|]. unfold exportScale. lia.
  - intros X Y c HX HY. split.
    + intros (x & y & w & h & Hk & Hcov).
      apply (export_calls_elem isColor size grid 0 newContext _ Hcolors) in Hk
        as [Hk|(j & d & Hj & Hd & Heq)]; [by apply elem_of_nil in Hk|].
      rewrite Z.add_0_l in Heq. unfold exportScale in Heq.
      injection Heq as -> -> -> -> ->. simpl in Hcov.
      apply block_covers in Hcov as [Hr Hq]; [|lia].
      apply lookup_lt_Some in Hj as Hlt.
      destruct (Hcell j Hlt) as [Hx Hy].
      assert (Z.of_nat j = Y / 10 * size + X / 10) as Hidx.
      { apply (cell_index size); [lia|lia|by rewrite <-Hr|done]. }
      by rewrite <-Hidx, Nat2Z.id.
    + intros [Hcellc Hc].
      set (j := Z.to_nat (Y / 10 * size + X / 10)) in *.
      assert (0 ≤ X / 10 < size).
      { split; [apply Z.div_pos; lia|apply Z.div_lt_upper_bound; lia]. }
      assert (0 ≤ Y / 10 < size).
      { split; [apply Z.div_pos; lia|apply Z.div_lt_upper_bound; lia]. }
      assert (Z.of_nat j = Y / 10 * size + X / 10) as Hj by (unfold j; nia).
      destruct (proj2 (cell_index size (Z.of_nat j) (X / 10) (Y / 10)
                         Hsize ltac:(lia) ltac:(lia)) Hj) as [Hr Hq].
      exists (X / 10 * 10), (Y / 10 * 10), 10, 10. split.
      * apply (export_calls_elem isColor size grid 0 newContext _ Hcolors).
        right. exists j, c. rewrite Z.add_0_l, Hr, Hq. done.
      * simpl. by apply block_covers.
Qed.

Lemma downloadCanvasAsPng_pixels_witness :
  ∃ file,
    downloadCanvasAsPng (λ _, true) true 1730000000000
      ["#ff0000"; transparent; transparent; "#00ff00"] 2
    = Some file
    ∧ canvasWidth file = 2 * 10.
Proof.
  destruct (downloadCanvasAsPng_pixels (λ _, true) 1730000000000
              ["#ff0000"; transparent; transparent; "#00ff00"] 2)
    as (file & Hfile & Hw & _).
  - lia.
  - reflexivity.
  - repeat constructor; by right.
  - by exists file.
Defined.

Section preview.
Context (isColor : string → bool) (size : Z).
Hypothesis dark_is_color : isColor "#1e293b" = true.
Hypothesis light_is_color : isColor "#334155" = true.

Lemma calls_drawCell c (i : Z) ctx :
  c = transparent ∨ isColor c = true →
  calls (drawCell isColor size c i ctx)
  = calls ctx
    ++ [FillRect (shownColor c (Z.rem i size) (i / size))
          (Z.rem i size) (i / size) 1 1].
Proof.
  intros Hc. unfold drawCell, shownColor, setFillStyle, fillRect.
  destruct (decide (c = transparent)) as [Ht|Ht].
  - case_decide; by rewrite ?dark_is_color, ?light_is_color.
  - destruct Hc as [?|Hc]; [done|]. by rewrite Hc.
Qed.

(** The calls of the draw effect after the clearing: one 1 x 1 fill per
    cell, at its column and row, in the colour the cell is shown in. *)
Lemma draw_calls (a : list string) (i0 : Z) ctx :
  Forall (λ c, c = transparent ∨ isColor c = true) a →
  ∃ fills,
    calls (forEachFrom i0 a (drawCell isColor size) ctx) = calls ctx ++ fills
    ∧ ∀ k, k ∈ fills
           ↔ ∃ (j : nat) cell,
               a !! j = Some cell
               ∧ k = FillRect
                       (shownColor cell (Z.rem (i0 + Z.of_nat j) size)
                          ((i0 + Z.of_nat j) / size))
                       (Z.rem (i0 + Z.of_nat j) size)
                       ((i0 + Z.of_nat j) / size) 1 1.
Proof.
  intros Ha. revert i0 ctx.
  induction Ha as [|c a Hc _ IH]; intros i0 ctx; simpl.
  { exists []. split; [by rewrite (right_id_L [] (++))|].
    intros k. split; [by intros ?%elem_of_nil|by intros (j & cell & ? & _)]. }
  destruct (IH (i0 + 1) (drawCell isColor size c i0 ctx))
    as (fills & Hcalls & Hfills).
  rewrite Hcalls, calls_drawCell, <-(assoc_L (++)) by done.
  eexists. split; [reflexivity|]. intros k. simpl.
  rewrite elem_of_cons, Hfills. split.
  - intros [->|(j & cell & Hj & ->)].
    + exists 0%nat, c. by rewrite Z.add_0_r.
    + exists (S j), cell.
      replace (i0 + Z.of_nat (S j)) with (i0 + 1 + Z.of_nat j) by lia.
      split; [exact Hj|done].
  - intros (j & cell & Hj & ->). destruct j as [|j].
    + simpl in Hj. injection Hj as ->. left. by rewrite Z.add_0_r.
    + right. exists j, cell.
      replace (i0 + 1 + Z.of_nat j) with (i0 + Z.of_nat (S j)) by lia.
      split; [exact Hj|done].
Qed.
End preview.

(** X24. The preview shows the grid that the editor edits: after the draw
    effect the context has been cleared and then filled one pixel per cell,
    and a fill reaches the pixel [(x, y)] of the canvas exactly if it
    carries the colour in which cell [y * size + x], the cell that
    [applyTool (x, y)] edits, is shown: its own colour, or for a
    transparent cell the grey of the checkerboard at [(x, y)]. *)
Theorem drawGrid_pixels (isColor : string → bool) (grid : list string)
    (size : Z) (ctx : context2d) :
  0 < size →
  Z.of_nat (length grid) = size * size →
  isColor "#1e293b" = true → isColor "#334155" = true →
  Forall (λ c, c = transparent ∨ isColor c = true) grid →
  ∃ fills,
    (calls <$> drawGrid isColor (Some grid) size (Some ctx))
    = Some (calls ctx ++ ClearRect 0 0 size size :: fills)
    ∧ ∀ x y c,
        inBounds size x y →
        (∃ x' y' w h, FillRect c x' y' w h ∈ fills
                      ∧ covers (FillRect c x' y' w h) x y)
        ↔ ∃ cell,
            grid !! Z.to_nat (y * size + x) = Some cell
            ∧ c = shownColor cell x y.
Proof.
  intros Hsize Hlen Hdark Hlight Hcolors.
  destruct (draw_calls isColor size Hdark Hlight grid 0
              (clearRect 0 0 size size ctx) Hcolors)
    as (fills & Hcalls & Hfills).
  exists fills. split.
  { simpl. rewrite Hcalls. simpl. by rewrite <-(assoc_L (++)). }
  intros x y c Hin. unfold inBounds in Hin. split.
  - intros (x' & y' & w & h & Hk & Hcov).
    apply Hfills in Hk as (j & cell & Hj & Heq).
    rewrite Z.add_0_l in Heq. injection Heq as -> -> -> -> ->.
    simpl in Hcov.
    assert (Z.rem (Z.of_nat j) size = x) as Hx by lia.
    assert (Z.of_nat j / size = y) as Hy by lia.
    assert (Z.of_nat j = y * size + x) as Hidx.
    { apply (cell_index size); [lia|lia|lia|done]. }
    exists cell. by rewrite <-Hidx, Nat2Z.id, Hx, Hy.
  - intros (cell & Hcell & ->).
    set (j := Z.to_nat (y * size + x)) in *.
    assert (Z.of_nat j = y * size + x) as Hj by (unfold j; nia).
    destruct (proj2 (cell_index size (Z.of_nat j) x y
                       Hsize ltac:(lia) ltac:(lia)) Hj) as [Hr Hq].
    exists x, y, 1, 1. split; [|simpl; lia].
    apply Hfills. exists j, cell. by rewrite Z.add_0_l, Hr, Hq.
Qed.

Lemma drawGrid_pixels_witness :
  ∃ fills,
    (calls <$> drawGrid (λ _, true)
                 (Some ["#ff0000"; transparent; transparent; "#00ff00"]) 2
                 (Some newContext))
    = Some (calls newContext ++ ClearRect 0 0 2 2 :: fills).
Proof.
  destruct (drawGrid_pixels (λ _, true)
              ["#ff0000"; transparent; transparent; "#00ff00"] 2 newContext)
    as (fills & Hcalls & _).
  - lia.
  - reflexivity.
  - reflexivity.
  - reflexivity.
  - repeat constructor; by right.
  - by exists fills.
Defined.

(** ** Editing and exporting *)

Section edit_export.
Implicit Types (g l acc : list string) (c C : string).

(** Building a [Set] commutes with dropping values. *)
Lemma foldl_set_add_filter (P : string → Prop) `{!∀ c, Decision (P c)}
    acc l :
  foldl set_add (filter P acc) (filter P l) = filter P (foldl set_add acc l).
Proof.
  revert acc. induction l as [|x l IH]; intros acc; [done|].
  rewrite filter_cons. simpl. rewrite <-IH. unfold set_add.
  destruct (decide (P x)) as [Hx|Hx]; simpl.
  - destruct (decide (x ∈ acc)) as [Hin|Hin].
    + rewrite decide_True; [done|]. by apply list_elem_of_filter.
    + rewrite decide_False by (rewrite list_elem_of_filter; tauto).
      rewrite filter_app, filter_cons, decide_True by done. done.
  - destruct (decide (x ∈ acc)) as [Hin|Hin]; [done|].
    rewrite filter_app, filter_cons, decide_False by done.
    by rewrite filter_nil, (right_id_L [] (++)).
Qed.

Lemma array_from_set_filter (P : string → Prop) `{!∀ c, Decision (P c)} l :
  array_from_set (filter P l) = filter P (array_from_set l).
Proof. apply (foldl_set_add_filter P [] l). Qed.

(** Erasing a colour and then dropping the transparent cells is dropping
    the transparent cells and that colour. *)
Lemma filter_erased C g :
  C ≠ transparent →
  filter (λ c, c ≠ transparent)
    ((λ c, if decide (c = C) then transparent else c) <$> g)
  = filter (λ c, c ≠ C) (filter (λ c, c ≠ transparent) g).
Proof.
  intros HC. induction g as [|x g IH]; [done|].
  rewrite fmap_cons, !filter_cons, IH.
  destruct (decide (x = C)) as [->|Hx].
  - rewrite decide_False by (by intros H). rewrite decide_True by done.
    rewrite filter_cons. by rewrite decide_False by (by intros H).
  - destruct (decide (x ≠ transparent)) as [Ht|Ht]; [|done].
    by rewrite filter_cons, decide_True.
Qed.
End edit_export.

(** X25. Editing and exporting compose: when the magic eraser removes the
    colour [C] from a grid of strings, the grid handed over is again a grid
    of strings, and the palette of its export is the palette of the old
    export without [C], the other colours in their old order. *)
Theorem magic_eraser_palette (σ : gmap nat (list jsval)) (grid : nat)
    (g : list string) (size x y : Z) (ts : ToolState) (C : string) :
  σ !! grid = Some (str <$> g) →
  activeTool ts = magic_eraser →
  inBounds size x y →
  g !! Z.to_nat (y * size + x) = Some C →
  C ≠ transparent →
  ∃ g',
    gridAfter grid (applyTool (Some grid) size ts x y σ) = str <$> g'
    ∧ palette (generateCodeSnippet g' size)
      = filter (λ c, c ≠ C) (palette (generateCodeSnippet g size)).
Proof.
  intros Hgrid Htool Hin HC Hne.
  exists ((λ c, if decide (c = C) then transparent else c) <$> g). split.
  - rewrite gridAfter_contents, applyTool_run_magic by done.
    rewrite (contents_lookup _ _ _ Hgrid). cbn zeta.
    assert (js_get (str <$> g) (y * size + x) = str C) as ->.
    { unfold js_get. unfold inBounds in Hin.
      rewrite decide_False by nia. by rewrite list_lookup_fmap, HC. }
    rewrite decide_True by congruence. cbn [fst snd default from_option].
    rewrite contents_insert. unfold eraseColor. rewrite <-!list_fmap_compose.
    apply list_fmap_ext. intros i c _. simpl.
    destruct (decide (c = C)) as [->|Hc].
    + by rewrite decide_True.
    + rewrite decide_False; [done|]. congruence.
  - simpl. unfold extractPalette.
    by rewrite filter_erased, array_from_set_filter.
Qed.

Lemma magic_eraser_palette_witness :
  ∃ g',
    gridAfter 0%nat
      (applyTool (Some 0%nat) 2 (MkToolState magic_eraser 1 "#ffffff") 1 0
         sampleStore)
    = str <$> g'
    ∧ palette (generateCodeSnippet g' 2) = ["#ff0000"].
Proof.
  destruct (magic_eraser_palette sampleStore 0%nat
              ["#ff0000"; "#00ff00"; "#00ff00"; transparent] 2 1 0
              (MkToolState magic_eraser 1 "#ffffff") "#00ff00")
    as (g' & Hafter & Hpal).
  - reflexivity.
  - reflexivity.
  - unfold inBounds. lia.
  - reflexivity.
  - discriminate.
  - exists g'. split; [exact Hafter|]. rewrite Hpal. reflexivity.
Defined.
(** ** The image in the answer of the model *)

Section gemini.
Implicit Types (ps : list Part) (d : InlineData).

Lemma firstInline_none ps :
  firstInline ps = None ↔ ∀ p, p ∈ ps → inlineData p = None.
Proof.
induction ps as [|p ps IH]; cbn [firstInline].
- split; [intros _ p Hp; inversion Hp | done].
- destruct (inlineData p) as [d|] eqn:Hp.
  + split; [done|].
    intros H. specialize (H p (list_elem_of_here _ _)). congruence.
  + rewrite IH. split.
    * intros H q Hq. apply elem_of_cons in Hq as [->|Hq]; auto.
    * intros H q Hq. apply H. by apply list_elem_of_further.
Qed.

Lemma firstInline_first ps (i : nat) d :
  ps !! i = Some (MkPart (Some d)) →
  (∀ (j : nat) p, (j < i)%nat → ps !! j = Some p → inlineData p = None) →
  firstInline ps
  = Some ("data:" +:+ mimeType d +:+ ";base64," +:+ base64Data d).
Proof.
revert i. induction ps as [|p ps IH]; intros i Hi Hbefore; [done|].
destruct i as [|i]; cbn [firstInline].
- injection Hi as ->. done.
- rewrite (Hbefore 0%nat p) by (done || lia).
  apply (IH i); [done|].
  intros j q Hj Hq. apply (Hbefore (S j) q); [lia | done].
Qed.

(** X26. When the model answers, [generatePixelArtImage] resolves with the
    data URL of the first part of the first candidate that carries inline
    data, whatever follows that part; it rejects with "No image generated."
    exactly when no part of the first candidate carries inline data, which
    includes an answer without candidates, content or parts. *)
Theorem generatePixelArtImage_first_image
    (generateContent : string → apiOutcome) (prompt : string)
    (size : PixelSize.t) (response : Response) :
  generateContent (finalPrompt prompt size) = ApiReturns response →
  (∀ (i : nat) d,
     partsOf response !! i = Some (MkPart (Some d)) →
     (∀ (j : nat) p, (j < i)%nat → partsOf response !! j = Some p →
        inlineData p = None) →
     generatePixelArtImage generateContent prompt size
     = Resolved ("data:" +:+ mimeType d +:+ ";base64," +:+ base64Data d))
  ∧ (generatePixelArtImage generateContent prompt size
     = Rejected (JsError "No image generated.")
     ↔ ∀ p, p ∈ partsOf response → inlineData p = None).
Proof.
intros Hanswer. unfold generatePixelArtImage. rewrite Hanswer. split.
- intros i d Hi Hbefore. by rewrite (firstInline_first _ i d).
- rewrite <- firstInline_none.
  destruct (firstInline (partsOf response)); split; congruence.
Qed.

Lemma generatePixelArtImage_first_image_witness :
  let response :=
    MkResponse (Some [MkCandidate (Some (MkContent (Some
      [MkPart None;
       MkPart (Some (MkInlineData "image/png" "iVBOR"));
       MkPart (Some (MkInlineData "image/jpeg" "9j4AA"))])))]) in
  generatePixelArtImage (λ _, ApiReturns response) "a fox" PixelSize.S
  = Resolved "data:image/png;base64,iVBOR".
Proof.
intros response.
destruct (generatePixelArtImage_first_image
            (λ _, ApiReturns response) "a fox" PixelSize.S response eq_refl)
  as [Hfirst _].
apply (Hfirst 1%nat (MkInlineData "image/png" "iVBOR")); [reflexivity|].
intros [|j] p Hj Hp; [|lia]. by injection Hp as <-.
Defined.

End gemini.
